(** * Real-time globe dashboard: ingestion pipelines

    A shallow embedding of the server-side feed pipelines of the dashboard
    (the Blitzortung lightning proxy, the AISStream vessel proxy, the
    in-memory lightning store and the satellite query procedure), with the
    properties of the decoder, the ring buffer, the connector guard, the
    broadcaster and the subscriber session proved over it.

    JavaScript numbers are IEEE 754 binary64 values ([spec_float] with
    precision 53 and maximal exponent 1024); JavaScript strings are lists
    of UTF-16 code units; a [Buffer] is a list of bytes.  Values drawn by
    the runtime ([nanoid()], [Date.now()], whether a write or a constructor
    throws) are inputs of the operation that draws them.  Console output
    is not part of the embedding. *)

From Stdlib Require Import String Ascii ZArith List Bool Lia.
From Stdlib Require Import Floats.SpecFloat DecimalString.
Import ListNotations.

Local Open Scope Z_scope.

(* ------------------------------------------------------------------ *)
(** * JavaScript numbers *)

Module JsNumber.

Definition prec : Z := 53.
Definition emax : Z := 1024.

Definition number : Type := spec_float.

Definition NaN : number := S754_nan.

(** The Number value of a mathematical integer (round to nearest, ties
    to even). *)
Definition of_Z (z : Z) : number := binary_normalize prec emax z 0 false.

(** The Number value of the rational [p / q] with sign [s], for positive
    [p] and [q]: one correctly rounded division of the exact operands. *)
Definition of_ratio (s : bool) (p q : positive) : number :=
  let '(mz, ez, lz) := SFdiv_core_binary prec emax (Zpos p) 0 (Zpos q) 0 in
  binary_round_aux prec emax s mz ez lz.

(** [x < y], [x > y], [x / y] and unary minus on Numbers. *)
Definition lt (x y : number) : bool := SFltb x y.
Definition gt (x y : number) : bool := SFltb y x.
Definition le (x y : number) : bool := SFleb x y.
Definition div (x y : number) : number := SFdiv prec emax x y.
Definition neg (x : number) : number := SFopp x.

(** [Math.abs]. *)
Definition Math_abs (x : number) : number := SFabs x.

(** [Math.floor]: the largest integral Number not above [x]; zeros,
    infinities and NaN are returned as they are. *)
Definition Math_floor (x : number) : number :=
  match x with
  | S754_finite s m e =>
      if 0 <=? e then x
      else
        let z := Z.shiftr (cond_Zopp s (Zpos m)) (- e) in
        if z =? 0 then S754_zero s else of_Z z
  | _ => x
  end.

(** [Math.trunc]: [x] with its fraction dropped (rounding toward zero). *)
Definition Math_trunc (x : number) : number :=
  match x with
  | S754_finite s m e =>
      if 0 <=? e then x
      else
        let z := Z.quot (cond_Zopp s (Zpos m)) (2 ^ (- e)) in
        if z =? 0 then S754_zero s else of_Z z
  | _ => x
  end.

(** ToBoolean on a Number: [+0], [-0] and NaN are falsy. *)
Definition truthy (x : number) : bool :=
  match x with
  | S754_zero _ | S754_nan => false
  | _ => true
  end.

(** A Number that is [+0] or [-0]. *)
Definition is_zero (x : number) : bool :=
  match x with
  | S754_zero _ => true
  | _ => false
  end.

(** [isFinite] on a Number. *)
Definition isFinite (x : number) : bool :=
  match x with
  | S754_zero _ | S754_finite _ _ _ => true
  | _ => false
  end.

End JsNumber.

(* ------------------------------------------------------------------ *)
(** * JavaScript strings: lists of UTF-16 code units *)

Module JsString.

Definition code_unit : Type := Z.
Definition jsstring : Type := list code_unit.

(** The code units of an ASCII literal of the source. *)
Definition u (s : string) : jsstring :=
  map (fun a => Z.of_nat (nat_of_ascii a)) (list_ascii_of_string s).

Definition dquote : code_unit := 34.
Definition colon : code_unit := 58.
Definition comma : code_unit := 44.
Definition C_acute : code_unit := 0x106.   (* U+0106, stands for a colon *)
Definition e_ogonek : code_unit := 0x119.  (* U+0119, stands for a comma *)

Definition is_ascii (c : code_unit) : bool := (0 <=? c) && (c <=? 0x7F).
Definition is_digit (c : code_unit) : bool := (48 <=? c) && (c <=? 57).

(** [s.replace(/c/g, d)] for a single code unit [c]. *)
Definition replace_all (c d : code_unit) (s : jsstring) : jsstring :=
  map (fun x => if x =? c then d else x) s.

(** [s.replace(/[^\x00-\x7F]/g, "")]. *)
Definition strip_non_ascii (s : jsstring) : jsstring := filter is_ascii s.

(** White space and line terminators skipped by [parseInt] and
    [parseFloat]. *)
Definition is_space (c : code_unit) : bool :=
  existsb (Z.eqb c)
    [0x9; 0xA; 0xB; 0xC; 0xD; 0x20; 0xA0; 0x1680; 0x2028; 0x2029; 0x202F;
     0x205F; 0x3000; 0xFEFF]
  || ((0x2000 <=? c) && (c <=? 0x200A)).

Fixpoint trim_start (s : jsstring) : jsstring :=
  match s with
  | c :: s' => if is_space c then trim_start s' else s
  | [] => []
  end.

(** The longest prefix of decimal digits, and what follows it. *)
Fixpoint span_digits (s : jsstring) : jsstring * jsstring :=
  match s with
  | c :: s' =>
      if is_digit c
      then let '(ds, rest) := span_digits s' in (c :: ds, rest)
      else ([], s)
  | [] => ([], [])
  end.

(** The mathematical value of a run of decimal digits. *)
Definition digits_value (ds : jsstring) : Z :=
  fold_left (fun acc c => 10 * acc + (c - 48)) ds 0.

(** An optional sign: [true] for a leading minus. *)
Definition take_sign (s : jsstring) : bool * jsstring :=
  match s with
  | c :: s' =>
      if c =? 45 then (true, s')
      else if c =? 43 then (false, s')
      else (false, s)
  | [] => (false, [])
  end.

Fixpoint starts_with (p s : jsstring) : bool :=
  match p, s with
  | [], _ => true
  | a :: p', b :: s' => (a =? b) && starts_with p' s'
  | _ :: _, [] => false
  end.

(** ** [parseInt(s, 10)]

    Leading white space is skipped, an optional sign is read, and the
    longest run of decimal digits is converted; with no digit the result
    is NaN. *)
Definition parseInt10 (s : jsstring) : JsNumber.number :=
  let '(sg, s1) := take_sign (trim_start s) in
  let '(ds, _) := span_digits s1 in
  match ds with
  | [] => JsNumber.NaN
  | _ =>
      let n := digits_value ds in
      if n =? 0 then S754_zero sg
      else JsNumber.of_Z (if sg then - n else n)
  end.

(** ** [parseFloat(s)]

    The longest prefix that is a decimal literal (sign, [Infinity] or
    digits with an optional fraction and exponent) is converted to the
    nearest Number; with no such prefix the result is NaN. *)

(** The value of an optional exponent part [e|E sign? digits]. *)
Definition exponent_part (s : jsstring) : Z :=
  match s with
  | c :: r =>
      if (c =? 101) || (c =? 69) then
        let '(sg, r') := take_sign r in
        let '(ds, _) := span_digits r' in
        match ds with
        | [] => 0
        | _ => if sg then - digits_value ds else digits_value ds
        end
      else 0
  | [] => 0
  end.

(** The Number nearest to [(-1)^sg * m * 10^e]. *)
Definition decimal_value (sg : bool) (m e : Z) : JsNumber.number :=
  match m with
  | Zpos p =>
      if 0 <=? e
      then JsNumber.of_Z (if sg then - (m * 10 ^ e) else m * 10 ^ e)
      else JsNumber.of_ratio sg p (Z.to_pos (10 ^ (- e)))
  | _ => S754_zero sg
  end.

Definition parseFloat (s : jsstring) : JsNumber.number :=
  let '(sg, s1) := take_sign (trim_start s) in
  if starts_with (u "Infinity") s1 then S754_infinity sg
  else
    let '(ip, s2) := span_digits s1 in
    let '(fp, s3) :=
      match s2 with
      | c :: s2' => if c =? 46 then span_digits s2' else ([], s2)
      | [] => ([], s2)
      end in
    match ip, fp with
    | [], [] => JsNumber.NaN
    | _, _ =>
        decimal_value sg (digits_value (ip ++ fp))
          (exponent_part s3 - Z.of_nat (length fp))
    end.

(** ** Regular expressions

    The fragment of the regular-expression language the decoder uses: a
    literal code unit, a greedy [+] over a character class, a greedy [?],
    concatenation and the capture group.  Matching is the backtracking
    search of the language: the matcher threads the rest of the input and
    the capture to a continuation, and a greedy operator tries the longer
    alternative first. *)

Inductive regex : Type :=
| RChar (c : code_unit)
| RClassPlus (cls : code_unit -> bool)
| ROpt (r : regex)
| RSeq (r1 r2 : regex)
| RGroup (r : regex).

Section Matcher.
Context {R : Type}.

Fixpoint class_plus (cls : code_unit -> bool) (s : jsstring)
    (k : jsstring -> option R) : option R :=
  match s with
  | c :: s' =>
      if cls c then
        match class_plus cls s' k with
        | Some r => Some r
        | None => k s'
        end
      else None
  | [] => None
  end.

Fixpoint run (r : regex) (s : jsstring) (cap : option jsstring)
    (k : jsstring -> option jsstring -> option R) : option R :=
  match r with
  | RChar c =>
      match s with
      | x :: s' => if x =? c then k s' cap else None
      | [] => None
      end
  | RClassPlus cls => class_plus cls s (fun rest => k rest cap)
  | ROpt r1 =>
      match run r1 s cap k with
      | Some res => Some res
      | None => k s cap
      end
  | RSeq r1 r2 => run r1 s cap (fun rest cap' => run r2 rest cap' k)
  | RGroup r1 =>
      run r1 s cap
        (fun rest _ =>
           k rest (Some (firstn (length s - length rest) s)))
  end.
End Matcher.

(** The literal [c1 c2 ... cn] followed by [r]. *)
Definition RLit (lit : jsstring) (r : regex) : regex :=
  fold_right (fun c acc => RSeq (RChar c) acc) r lit.

(** [s.match(r)] for a non-global [r]: the leftmost match; the result is
    capture group 1 ([None] inside for a group that did not take part). *)
Fixpoint str_match (r : regex) (s : jsstring) : option (option jsstring) :=
  match run r s None (fun _ cap => Some cap) with
  | Some cap => Some cap
  | None =>
      match s with
      | _ :: s' => str_match r s'
      | [] => None
      end
  end.

(** [m[1]] passed to a parser, which applies ToString. *)
Definition group1 (m : option jsstring) : jsstring :=
  match m with
  | Some t => t
  | None => u "undefined"
  end.

End JsString.

(* ------------------------------------------------------------------ *)
(** * Buffers *)

Module Buffer.

Import JsString.

Definition byte : Type := Z.
Definition Buffer : Type := list byte.

(** The decoder state: code point under construction, continuation bytes
    still needed, and the bounds of the next continuation byte. *)
Record utf8_state : Type := {
  cp : Z;
  needed : Z;
  lower : Z;
  upper : Z
}.

Definition utf8_init : utf8_state :=
  {| cp := 0; needed := 0; lower := 0x80; upper := 0xBF |}.

Definition in_range (lo hi b : Z) : bool := (lo <=? b) && (b <=? hi).

(** A code point as UTF-16 code units. *)
Definition utf16 (c : Z) : jsstring :=
  if c <? 0x10000 then [c]
  else [0xD800 + Z.shiftr (c - 0x10000) 10;
        0xDC00 + Z.land (c - 0x10000) 0x3FF].

(** A byte read with no sequence pending. *)
Definition utf8_lead (b : byte) : utf8_state * jsstring :=
  if in_range 0x00 0x7F b then (utf8_init, [b])
  else if in_range 0xC2 0xDF b then
    ({| cp := Z.land b 0x1F; needed := 1; lower := 0x80; upper := 0xBF |}, [])
  else if in_range 0xE0 0xEF b then
    ({| cp := Z.land b 0xF; needed := 2;
        lower := if b =? 0xE0 then 0xA0 else 0x80;
        upper := if b =? 0xED then 0x9F else 0xBF |}, [])
  else if in_range 0xF0 0xF4 b then
    ({| cp := Z.land b 0x7; needed := 3;
        lower := if b =? 0xF0 then 0x90 else 0x80;
        upper := if b =? 0xF4 then 0x8F else 0xBF |}, [])
  else (utf8_init, [0xFFFD]).

(** One byte: a continuation byte extends the pending sequence; any
    other byte ends it with U+FFFD and is then read afresh. *)
Definition utf8_step (st : utf8_state) (b : byte) : utf8_state * jsstring :=
  if needed st =? 0 then utf8_lead b
  else if in_range (lower st) (upper st) b then
    let c := Z.lor (Z.shiftl (cp st) 6) (Z.land b 0x3F) in
    if needed st =? 1 then (utf8_init, utf16 c)
    else ({| cp := c; needed := needed st - 1;
             lower := 0x80; upper := 0xBF |}, [])
  else
    let '(st', out) := utf8_lead b in (st', 0xFFFD :: out).

Fixpoint utf8_decode (st : utf8_state) (b : Buffer) : jsstring :=
  match b with
  | x :: b' =>
      let '(st', out) := utf8_step st x in out ++ utf8_decode st' b'
  | [] => if needed st =? 0 then [] else [0xFFFD]
  end.

(** [b.toString("utf8")]. *)
Definition toString_utf8 (b : Buffer) : jsstring := utf8_decode utf8_init b.

(** The bytes of a code point. *)
Definition utf8_bytes (c : Z) : Buffer :=
  if c <? 0x80 then [c]
  else if c <? 0x800 then
    [Z.lor 0xC0 (Z.shiftr c 6); Z.lor 0x80 (Z.land c 0x3F)]
  else if c <? 0x10000 then
    [Z.lor 0xE0 (Z.shiftr c 12);
     Z.lor 0x80 (Z.land (Z.shiftr c 6) 0x3F);
     Z.lor 0x80 (Z.land c 0x3F)]
  else
    [Z.lor 0xF0 (Z.shiftr c 18);
     Z.lor 0x80 (Z.land (Z.shiftr c 12) 0x3F);
     Z.lor 0x80 (Z.land (Z.shiftr c 6) 0x3F);
     Z.lor 0x80 (Z.land c 0x3F)].

Definition is_high_surrogate (c : code_unit) : bool := in_range 0xD800 0xDBFF c.
Definition is_low_surrogate (c : code_unit) : bool := in_range 0xDC00 0xDFFF c.

(** [Buffer.from(s)]: a surrogate pair is one code point, a lone
    surrogate is written as U+FFFD. *)
Fixpoint Buffer_from (s : jsstring) : Buffer :=
  match s with
  | [] => []
  | c :: rest =>
      if is_high_surrogate c then
        match rest with
        | lo :: rest' =>
            if is_low_surrogate lo
            then utf8_bytes (0x10000 + Z.shiftl (c - 0xD800) 10 + (lo - 0xDC00))
                   ++ Buffer_from rest'
            else utf8_bytes 0xFFFD ++ Buffer_from rest
        | [] => utf8_bytes 0xFFFD
        end
      else if is_low_surrogate c then utf8_bytes 0xFFFD ++ Buffer_from rest
      else utf8_bytes c ++ Buffer_from rest
  end.

End Buffer.

(* ------------------------------------------------------------------ *)
(** * The Blitzortung decoder *)

Module Blitzortung.

Import JsNumber JsString Buffer.

Record Decoded : Type := {
  lat : number;
  lon : number;
  time : number
}.

Definition class_digit : code_unit -> bool := is_digit.

(** The class [[-\d.]]. *)
Definition class_coord (c : code_unit) : bool :=
  (c =? 45) || is_digit c || (c =? 46).

(** The pattern [/"?KEY"?:(CLASS+)/]. *)
Definition field_regex (key : jsstring) (cls : code_unit -> bool) : regex :=
  RSeq (ROpt (RChar dquote))
    (RLit key
       (RSeq (ROpt (RChar dquote))
          (RSeq (RChar colon) (RGroup (RClassPlus cls))))).

Definition time_regex : regex := field_regex (u "time") class_digit.
Definition lat_regex : regex := field_regex (u "lat") class_coord.
Definition lon_regex : regex := field_regex (u "lon") class_coord.

Definition decodeBlitzortung (b : Buffer) : option Decoded :=
  let str := toString_utf8 b in
  (* Step 1: replace structural unicode substitutions *)
  let decoded := replace_all e_ogonek comma (replace_all C_acute colon str) in
  (* Step 2: strip remaining non-ASCII noise *)
  let decoded := strip_non_ascii decoded in
  (* Step 3: extract fields via regex *)
  match str_match time_regex decoded,
        str_match lat_regex decoded,
        str_match lon_regex decoded with
  | Some timeMatch, Some latMatch, Some lonMatch =>
      let rawTime := parseInt10 (group1 timeMatch) in
      let lat := parseFloat (group1 latMatch) in
      let lon := parseFloat (group1 lonMatch) in
      (* Validate coordinate ranges *)
      if lt lat (of_Z (-90)) || gt lat (of_Z 90)
         || lt lon (of_Z (-180)) || gt lon (of_Z 180)
      then None
      else
        let timeMs :=
          if gt rawTime (of_Z (10 ^ 15))
          then Math_floor (div rawTime (of_Z (10 ^ 6)))
          else rawTime in
        Some {| lat := lat; lon := lon; time := timeMs |}
  | _, _, _ => None
  end.

End Blitzortung.

(* ------------------------------------------------------------------ *)
(** * Obfuscated frames *)

Module Frame.

Import JsNumber JsString.

(** A number written in plain decimal notation: an optional minus, the
    integer digits, and the fraction digits (none: no decimal point). *)
Record decimal : Type := {
  d_neg : bool;
  d_int : jsstring;
  d_frac : jsstring
}.

Definition wf_decimal (d : decimal) : bool :=
  match d_int d with [] => false | _ => true end
  && forallb is_digit (d_int d) && forallb is_digit (d_frac d).

Definition render (d : decimal) : jsstring :=
  (if d_neg d then [45] else [])
    ++ d_int d
    ++ match d_frac d with [] => [] | _ => 46 :: d_frac d end.

(** The Number a decimal denotes. *)
Definition value (d : decimal) : number :=
  decimal_value (d_neg d) (digits_value (d_int d ++ d_frac d))
    (- Z.of_nat (length (d_frac d))).

Definition wf_digits (t : jsstring) : bool :=
  match t with [] => false | _ => true end && forallb is_digit t.

Definition key (k : string) : jsstring := dquote :: u k ++ [dquote].

(** The text [{"time":T,"lat":LA,"lon":LO}]. *)
Definition record_text (t : jsstring) (la lo : decimal) : jsstring :=
  u "{" ++ key "time" ++ colon :: t
    ++ comma :: key "lat" ++ colon :: render la
    ++ comma :: key "lon" ++ colon :: render lo ++ u "}".

(** Noise: a code unit outside ASCII that is neither substitute. *)
Definition is_noise (c : code_unit) : bool :=
  negb (is_ascii c) && negb (c =? C_acute) && negb (c =? e_ogonek).

(** [obfuscated clean wire]: [wire] is [clean] with any of its colons
    written U+0106, any of its commas written U+0119, and noise code
    units inserted at any position. *)
Fixpoint obfuscated (clean wire : jsstring) : bool :=
  match wire with
  | [] => match clean with [] => true | _ => false end
  | x :: wire' =>
      if is_noise x then obfuscated clean wire'
      else
        match clean with
        | c :: clean' =>
            ((x =? c)
             || ((x =? C_acute) && (c =? colon))
             || ((x =? e_ogonek) && (c =? comma)))
            && obfuscated clean' wire'
        | [] => false
        end
  end.

(** A timestamp normalised to milliseconds: a raw value above [10^15] is
    in nanoseconds, and is divided by [10^6] and truncated toward zero;
    any other value is kept. *)
Definition normalise (raw : number) : number :=
  if gt raw (of_Z (10 ^ 15))
  then Math_trunc (div raw (of_Z (10 ^ 6)))
  else raw.

(** Valid coordinates: finite, latitude in [[-90, 90]] and longitude in
    [[-180, 180]]. *)
Definition lat_in_range (x : number) : bool :=
  isFinite x && le (of_Z (-90)) x && le x (of_Z 90).

Definition lon_in_range (x : number) : bool :=
  isFinite x && le (of_Z (-180)) x && le x (of_Z 180).

(** The scenario frame: [{"time":1700000000000123000,"lat":35.1,"lon":139.6}]
    as UTF-8 bytes, with U+0108 and U+010A spliced into the time digits and
    the colon after ["lat"] written U+0106. *)
Definition scenario_frame : Buffer.Buffer :=
  u "{" ++ key "time" ++ u ":17000" ++ [0xC4; 0x88] ++ u "00000"
    ++ [0xC4; 0x8A] ++ u "000123000," ++ key "lat" ++ [0xC4; 0x86]
    ++ u "35.1," ++ key "lon" ++ u ":139.6}".

Definition dec (neg : bool) (ip fp : string) : decimal :=
  {| d_neg := neg; d_int := u ip; d_frac := u fp |}.

(** A frame whose latitude is a lone minus sign:
    [{"time":1700000000000123000,"lat":-,"lon":139.6}]. *)
Definition minus_frame : Buffer.Buffer :=
  u "{" ++ key "time" ++ u ":1700000000000123000," ++ key "lat"
    ++ u ":-," ++ key "lon" ++ u ":139.6}".

End Frame.

(* ------------------------------------------------------------------ *)
(** * Arrays and insertion-ordered maps *)

Module JsArray.

(** [a.slice(start)] for an integral [start]: a negative [start] counts
    from the end, and the bounds are clamped to the array. *)
Definition slice {A : Type} (start : Z) (a : list A) : list A :=
  let len := Z.of_nat (length a) in
  let k := if start <? 0 then Z.max (len + start) 0 else Z.min start len in
  skipn (Z.to_nat k) a.

End JsArray.

Module JsMap.

Import JsString.

Fixpoint str_eqb (a b : jsstring) : bool :=
  match a, b with
  | [], [] => true
  | x :: a', y :: b' => (x =? y) && str_eqb a' b'
  | _, _ => false
  end.

(** A [Map<string, V>]: the entries in insertion order, keys distinct. *)
Definition t (V : Type) : Type := list (jsstring * V).

(** [m.set(k, v)]: an existing key keeps its place, a new key is appended. *)
Fixpoint set {V : Type} (k : jsstring) (v : V) (m : t V) : t V :=
  match m with
  | [] => [(k, v)]
  | (k', v') :: m' =>
      if str_eqb k k' then (k, v) :: m' else (k', v') :: set k v m'
  end.

(** [m.delete(k)]. *)
Definition delete {V : Type} (k : jsstring) (m : t V) : t V :=
  filter (fun kv => negb (str_eqb k (fst kv))) m.

Definition keys {V : Type} (m : t V) : list jsstring := map fst m.
Definition values {V : Type} (m : t V) : list V := map snd m.
Definition size {V : Type} (m : t V) : Z := Z.of_nat (length m).

End JsMap.

(* ------------------------------------------------------------------ *)
(** * The in-memory lightning store (routers.ts) *)

Module Store.

Import JsNumber JsString JsArray.

Record LightningStrike : Type := {
  lat : number;
  lon : number;
  time : number;
  id : jsstring
}.

(** The fields of [class LightningStore].  The counter [total] is a Number
    holding an integer; it is exact below [2^53] insertions. *)
Record LightningStore : Type := {
  strikes : list LightningStrike;
  total : Z;
  maxSize : Z
}.

(** [new LightningStore()]. *)
Definition new_LightningStore : LightningStore :=
  {| strikes := []; total := 0; maxSize := 500 |}.

Definition add (strike : LightningStrike) (this : LightningStore)
  : LightningStore :=
  let strikes1 := strikes this ++ [strike] in
  let total1 := total this + 1 in
  if maxSize this <? Z.of_nat (length strikes1)
  then {| strikes := slice (- maxSize this) strikes1;
          total := total1; maxSize := maxSize this |}
  else {| strikes := strikes1; total := total1; maxSize := maxSize this |}.

Definition getRecent (n : Z) (this : LightningStore) : list LightningStrike :=
  slice (- n) (strikes this).

Definition getTotal (this : LightningStore) : Z := total this.

(** [getLastMinute()], with [now] the value of [Date.now()]. *)
Definition getLastMinute (now : Z) (this : LightningStore) : Z :=
  let oneMinuteAgo := of_Z (now - 60000) in
  Z.of_nat (length (filter (fun s => gt (time s) oneMinuteAgo) (strikes this))).

(** The operations of the store, and the store after one of them. *)
Inductive op : Type :=
| Add (strike : LightningStrike)
| GetRecent (n : Z)
| GetTotal
| GetLastMinute (now : Z).

Definition step (this : LightningStore) (o : op) : LightningStore :=
  match o with
  | Add strike => add strike this
  | GetRecent _ | GetTotal | GetLastMinute _ => this
  end.

Definition run (ops : list op) (this : LightningStore) : LightningStore :=
  fold_left step ops this.

(** The strikes inserted by a sequence of operations, oldest first. *)
Definition inserted (ops : list op) : list LightningStrike :=
  flat_map (fun o => match o with Add s => [s] | _ => [] end) ops.

(** The last [n] elements of a list, in order. *)
Definition lastn {A : Type} (n : nat) (l : list A) : list A :=
  skipn (length l - n) l.

(** A store of capacity [c] with nothing inserted. *)
Definition empty_store (c : Z) : LightningStore :=
  {| strikes := []; total := 0; maxSize := c |}.

Definition add_all (l : list LightningStrike) (this : LightningStore)
  : LightningStore :=
  fold_left (fun st s => add s st) l this.

(** A strike at the origin with timestamp [t]. *)
Definition strike_at (t : Z) : LightningStrike :=
  {| lat := of_Z 0; lon := of_Z 0; time := of_Z t; id := [] |}.

End Store.

(* ------------------------------------------------------------------ *)
(** * Sockets, responses and timers

    The proxies act on objects of the runtime: [WebSocket]s of the [ws]
    library, Express [Response]s and timers.  Each object is a handle, and
    each action on one is recorded, in program order, in a trace.  Which
    [res.write] throws, and whether [new WebSocket] throws, is decided by
    the runtime and is an input of the operation that performs it. *)

Module Net.

Import JsString.

Inductive ReadyState : Type := CONNECTING | OPEN | CLOSING | CLOSED.

Definition ReadyState_eqb (a b : ReadyState) : bool :=
  match a, b with
  | CONNECTING, CONNECTING | OPEN, OPEN | CLOSING, CLOSING | CLOSED, CLOSED =>
      true
  | _, _ => false
  end.

Record WebSocket : Type := {
  url : jsstring;
  readyState : ReadyState
}.

(** What is written to an event stream: a [data:] line carrying a payload,
    or the [:heartbeat] comment line. *)
Inductive chunk (P : Type) : Type :=
| Data (payload : P)
| Heartbeat.

Arguments Data {P} payload.
Arguments Heartbeat {P}.

Inductive effect (P : Type) : Type :=
| NewWebSocket (url : jsstring)
| WsSend (ws : nat) (data : jsstring)
| ResSetHeader (res : nat) (name value : string)
| ResFlushHeaders (res : nat)
| ResWrite (res : nat) (c : chunk P)
| ResWriteThrew (res : nat) (c : chunk P)
| ClientsSet (id : jsstring) (res : nat)
| ClientsDelete (id : jsstring)
| SetTimeout (timer : nat) (delay : Z)
| ClearTimeout (timer : nat)
| SetInterval (timer : nat) (delay : Z)
| ClearInterval (timer : nat).

Arguments NewWebSocket {P} url.
Arguments WsSend {P} ws data.
Arguments ResSetHeader {P} res name value.
Arguments ResFlushHeaders {P} res.
Arguments ResWrite {P} res c.
Arguments ResWriteThrew {P} res c.
Arguments ClientsSet {P} id res.
Arguments ClientsDelete {P} id.
Arguments SetTimeout {P} timer delay.
Arguments ClearTimeout {P} timer.
Arguments SetInterval {P} timer delay.
Arguments ClearInterval {P} timer.

(** The chunks a response received: the writes to it that returned. *)
Definition received {P : Type} (res : nat) (tr : list (effect P))
  : list (chunk P) :=
  flat_map (fun e => match e with
                     | ResWrite r c => if Nat.eqb r res then [c] else []
                     | _ => []
                     end) tr.

(** The responses a trace attempted to write to, in order. *)
Definition write_targets {P : Type} (tr : list (effect P)) : list nat :=
  flat_map (fun e => match e with
                     | ResWrite r _ | ResWriteThrew r _ => [r]
                     | _ => []
                     end) tr.

Section Broadcast.
Context {P : Type}.

(** The body of the [forEach] callback: a write inside [try], whose
    [catch] pushes the client id on [toDelete]. *)
Definition write_client (throws : nat -> bool) (data : chunk P)
    (acc : list (effect P) * list jsstring) (entry : jsstring * nat)
  : list (effect P) * list jsstring :=
  let '(tr, toDelete) := acc in
  let '(id, res) := entry in
  if throws res
  then (tr ++ [ResWriteThrew res data], toDelete ++ [id])
  else (tr ++ [ResWrite res data], toDelete).

(** [toDelete.forEach((id) => sseClients.delete(id))]. *)
Definition delete_client (acc : JsMap.t nat * list (effect P)) (id : jsstring)
  : JsMap.t nat * list (effect P) :=
  let '(clients, tr) := acc in
  (JsMap.delete id clients, tr ++ [ClientsDelete id]).

(** [broadcastLightning] and [broadcastVessel]: the registry is iterated
    with every write guarded, and the clients whose write threw are
    deleted once the iteration is over. *)
Definition broadcast (throws : nat -> bool) (data : chunk P)
    (sseClients : JsMap.t nat) (tr : list (effect P))
  : JsMap.t nat * list (effect P) :=
  let '(tr1, toDelete) :=
    fold_left (write_client throws data) sseClients (tr, []) in
  fold_left delete_client toDelete (sseClients, tr1).

End Broadcast.

End Net.

(* ------------------------------------------------------------------ *)
(** * The Blitzortung proxy: registry, connector and session *)

Module LightningWs.

Import JsNumber JsString Buffer Net.

Inductive payload : Type :=
| Connected (clientId : jsstring)
| History (strikes : list Store.LightningStrike)
| Strike (strike : Store.LightningStrike).

(** The module variables, the imported [lightningStore], the sockets
    constructed so far, the next timer handle and the trace. *)
Record state : Type := {
  sseClients : JsMap.t nat;
  currentServerIndex : Z;
  blitzortungWs : option nat;
  reconnectTimer : option nat;
  isConnecting : bool;
  lightningStore : Store.LightningStore;
  sockets : list WebSocket;
  next_timer : nat;
  trace : list (effect payload)
}.

Definition BLITZORTUNG_SERVERS : list jsstring :=
  [u "wss://ws1.blitzortung.org";
   u "wss://ws7.blitzortung.org";
   u "wss://ws8.blitzortung.org"].

Definition initial : state :=
  {| sseClients := []; currentServerIndex := 0; blitzortungWs := None;
     reconnectTimer := None; isConnecting := false;
     lightningStore := Store.new_LightningStore;
     sockets := []; next_timer := 0; trace := [] |}.

Definition addSSEClient (id : jsstring) (res : nat) (st : state) : state :=
  {| sseClients := JsMap.set id res (sseClients st);
     currentServerIndex := currentServerIndex st;
     blitzortungWs := blitzortungWs st;
     reconnectTimer := reconnectTimer st;
     isConnecting := isConnecting st;
     lightningStore := lightningStore st;
     sockets := sockets st; next_timer := next_timer st;
     trace := trace st ++ [ClientsSet id res] |}.

Definition removeSSEClient (id : jsstring) (st : state) : state :=
  {| sseClients := JsMap.delete id (sseClients st);
     currentServerIndex := currentServerIndex st;
     blitzortungWs := blitzortungWs st;
     reconnectTimer := reconnectTimer st;
     isConnecting := isConnecting st;
     lightningStore := lightningStore st;
     sockets := sockets st; next_timer := next_timer st;
     trace := trace st ++ [ClientsDelete id] |}.

Definition broadcastLightning (throws : nat -> bool)
    (strike : Store.LightningStrike) (st : state) : state :=
  let '(clients, tr) :=
    broadcast throws (Data (Strike strike)) (sseClients st) (trace st) in
  {| sseClients := clients;
     currentServerIndex := currentServerIndex st;
     blitzortungWs := blitzortungWs st;
     reconnectTimer := reconnectTimer st;
     isConnecting := isConnecting st;
     lightningStore := lightningStore st;
     sockets := sockets st; next_timer := next_timer st;
     trace := tr |}.

(** [blitzortungWs && blitzortungWs.readyState === WebSocket.OPEN]. *)
Definition ws_open (st : state) : bool :=
  match blitzortungWs st with
  | Some h =>
      match nth_error (sockets st) h with
      | Some ws => ReadyState_eqb (readyState ws) OPEN
      | None => false
      end
  | None => false
  end.

Definition scheduleReconnect (delay : Z) (st : state) : state :=
  let tr :=
    match reconnectTimer st with
    | Some t => trace st ++ [ClearTimeout t]
    | None => trace st
    end in
  {| sseClients := sseClients st;
     currentServerIndex := currentServerIndex st;
     blitzortungWs := blitzortungWs st;
     reconnectTimer := Some (next_timer st);
     isConnecting := isConnecting st;
     lightningStore := lightningStore st;
     sockets := sockets st; next_timer := S (next_timer st);
     trace := tr ++ [SetTimeout (next_timer st) delay] |}.

(** [connectBlitzortung()]; [ctor_throws] tells whether [new WebSocket]
    throws. *)
Definition connectBlitzortung (ctor_throws : bool) (st : state) : state :=
  if isConnecting st || ws_open st then st
  else
    let serverUrl :=
      nth (Z.to_nat (currentServerIndex st
                     mod Z.of_nat (length BLITZORTUNG_SERVERS)))
        BLITZORTUNG_SERVERS [] in
    if ctor_throws then
      scheduleReconnect 5000
        {| sseClients := sseClients st;
           currentServerIndex := currentServerIndex st + 1;
           blitzortungWs := blitzortungWs st;
           reconnectTimer := reconnectTimer st;
           isConnecting := false;
           lightningStore := lightningStore st;
           sockets := sockets st; next_timer := next_timer st;
           trace := trace st |}
    else
      {| sseClients := sseClients st;
         currentServerIndex := currentServerIndex st + 1;
         blitzortungWs := Some (length (sockets st));
         reconnectTimer := reconnectTimer st;
         isConnecting := true;
         lightningStore := lightningStore st;
         sockets := sockets st
                    ++ [{| url := serverUrl; readyState := CONNECTING |}];
         next_timer := next_timer st;
         trace := trace st ++ [NewWebSocket serverUrl] |}.

(** The callback of the reconnect timer. *)
Definition reconnect_fired (ctor_throws : bool) (st : state) : state :=
  connectBlitzortung ctor_throws
    {| sseClients := sseClients st;
       currentServerIndex := currentServerIndex st;
       blitzortungWs := blitzortungWs st;
       reconnectTimer := None;
       isConnecting := isConnecting st;
       lightningStore := lightningStore st;
       sockets := sockets st; next_timer := next_timer st;
       trace := trace st |}.

(** [Buffer.isBuffer(rawData) ? rawData : Buffer.from(rawData)]. *)
Definition to_buffer (rawData : Buffer + jsstring) : Buffer :=
  match rawData with
  | inl b => b
  | inr s => Buffer_from s
  end.

(** The ["message"] handler; [id] is the value of [nanoid(8)]. *)
Definition on_message (throws : nat -> bool) (rawData : Buffer + jsstring)
    (id : jsstring) (st : state) : state :=
  match Blitzortung.decodeBlitzortung (to_buffer rawData) with
  | None => st
  | Some decoded =>
      let strike :=
        {| Store.lat := Blitzortung.lat decoded;
           Store.lon := Blitzortung.lon decoded;
           Store.time := Blitzortung.time decoded;
           Store.id := id |} in
      broadcastLightning throws strike
        {| sseClients := sseClients st;
           currentServerIndex := currentServerIndex st;
           blitzortungWs := blitzortungWs st;
           reconnectTimer := reconnectTimer st;
           isConnecting := isConnecting st;
           lightningStore := Store.add strike (lightningStore st);
           sockets := sockets st; next_timer := next_timer st;
           trace := trace st |}
  end.

Definition with_trace (tr : list (effect payload)) (st : state) : state :=
  {| sseClients := sseClients st;
     currentServerIndex := currentServerIndex st;
     blitzortungWs := blitzortungWs st;
     reconnectTimer := reconnectTimer st;
     isConnecting := isConnecting st;
     lightningStore := lightningStore st;
     sockets := sockets st; next_timer := next_timer st;
     trace := tr |}.

(** [handleLightningSSE(req, res)]; [clientId] is the value of [nanoid()].
    The writes are not guarded: on a response whose write throws, the
    first one ends the handler. *)
Definition handleLightningSSE (throws : nat -> bool) (clientId : jsstring)
    (res : nat) (st : state) : state :=
  let tr0 :=
    trace st
      ++ [ResSetHeader res "Content-Type" "text/event-stream";
          ResSetHeader res "Cache-Control" "no-cache";
          ResSetHeader res "Connection" "keep-alive";
          ResSetHeader res "Access-Control-Allow-Origin" "*";
          ResFlushHeaders res] in
  (* Send initial connection event *)
  if throws res
  then with_trace (tr0 ++ [ResWriteThrew res (Data (Connected clientId))]) st
  else
    let tr1 := tr0 ++ [ResWrite res (Data (Connected clientId))] in
    (* Send recent strikes on connect *)
    let recent := Store.getRecent 50 (lightningStore st) in
    let registered (tr : list (effect payload)) : state :=
      let st1 := addSSEClient clientId res (with_trace tr st) in
      (* Heartbeat every 30s *)
      {| sseClients := sseClients st1;
         currentServerIndex := currentServerIndex st1;
         blitzortungWs := blitzortungWs st1;
         reconnectTimer := reconnectTimer st1;
         isConnecting := isConnecting st1;
         lightningStore := lightningStore st1;
         sockets := sockets st1; next_timer := S (next_timer st1);
         trace := trace st1 ++ [SetInterval (next_timer st1) 30000] |} in
    if (0 <? length recent)%nat
    then registered (tr1 ++ [ResWrite res (Data (History recent))])
    else registered tr1.

(** The heartbeat callback of the session of [clientId]. *)
Definition heartbeat_fired (throws : nat -> bool) (clientId : jsstring)
    (res heartbeat : nat) (st : state) : state :=
  if throws res
  then removeSSEClient clientId
         (with_trace (trace st ++ [ResWriteThrew res Heartbeat;
                                   ClearInterval heartbeat]) st)
  else with_trace (trace st ++ [ResWrite res Heartbeat]) st.

(** The ["close"] handler of the request of [clientId]. *)
Definition on_request_close (clientId : jsstring) (heartbeat : nat)
    (st : state) : state :=
  removeSSEClient clientId
    (with_trace (trace st ++ [ClearInterval heartbeat]) st).

(** Upstream frames handled one after the other; each comes with the
    identifier drawn for it and the responses whose write throws. *)
Definition frame : Type := (nat -> bool) * (Buffer + jsstring) * jsstring.

Definition on_messages (frames : list frame) (st : state) : state :=
  fold_left (fun st '(throws, rawData, id) => on_message throws rawData id st)
    frames st.

(** The strikes the frames decode to, each with the responses whose
    write throws when it is published. *)
Definition decoded_frames (frames : list frame)
  : list ((nat -> bool) * Store.LightningStrike) :=
  flat_map (fun '(throws, rawData, id) =>
              match Blitzortung.decodeBlitzortung (to_buffer rawData) with
              | Some decoded =>
                  [(throws,
                    {| Store.lat := Blitzortung.lat decoded;
                       Store.lon := Blitzortung.lon decoded;
                       Store.time := Blitzortung.time decoded;
                       Store.id := id |})]
              | None => []
              end) frames.

Definition decoded_strikes (frames : list frame) : list Store.LightningStrike :=
  map snd (decoded_frames frames).

(** Sample states: a socket being opened; two subscribers; a store of
    fifty strikes and no subscriber. *)
Definition connecting_state : state :=
  {| sseClients := []; currentServerIndex := 1; blitzortungWs := Some 0%nat;
     reconnectTimer := None; isConnecting := true;
     lightningStore := Store.new_LightningStore;
     sockets := [{| url := u "wss://ws1.blitzortung.org";
                    readyState := CONNECTING |}];
     next_timer := 0;
     trace := [NewWebSocket (u "wss://ws1.blitzortung.org")] |}.

Definition two_clients : state :=
  {| sseClients := [(u "a", 0%nat); (u "b", 1%nat)];
     currentServerIndex := 0; blitzortungWs := None; reconnectTimer := None;
     isConnecting := false; lightningStore := Store.new_LightningStore;
     sockets := []; next_timer := 0; trace := [] |}.

Definition fifty_strikes : state :=
  {| sseClients := []; currentServerIndex := 0; blitzortungWs := None;
     reconnectTimer := None; isConnecting := false;
     lightningStore :=
       Store.add_all (map Store.strike_at (map Z.of_nat (seq 0 50)))
         Store.new_LightningStore;
     sockets := []; next_timer := 0; trace := [] |}.

End LightningWs.

(* ------------------------------------------------------------------ *)
(** * The environment of the process *)

Module Process.

Import JsString.

(** [process.env]: a variable is unset or holds a string. *)
Definition env : Type := string -> option jsstring.

(** [!!process.env.NAME]: set, and not the empty string. *)
Definition configured (e : env) (name : string) : bool :=
  match e name with
  | Some (_ :: _) => true
  | _ => false
  end.

(** An environment with no variable set. *)
Definition no_env : env := fun _ => None.

End Process.

(* ------------------------------------------------------------------ *)
(** * The AISStream proxy *)

Module AisStream.

Import JsNumber JsString Net Process.

Record VesselPoint : Type := {
  mmsi : jsstring;
  name : jsstring;
  lat : number;
  lon : number;
  cog : number;
  sog : number;
  heading : number;
  time : number;
  shipType : option number
}.

(** ** Vessel store *)

Record VesselStore : Type := {
  vessels : JsMap.t VesselPoint;
  maxSize : Z
}.

Definition new_VesselStore : VesselStore := {| vessels := []; maxSize := 500 |}.

Definition update (vessel : VesselPoint) (this : VesselStore) : VesselStore :=
  let vessels1 := JsMap.set (mmsi vessel) vessel (vessels this) in
  (* Trim to max size (remove oldest by insertion order) *)
  if maxSize this <? JsMap.size vessels1 then
    match JsMap.keys vessels1 with
    | firstKey :: _ =>
        match firstKey with
        | [] => {| vessels := vessels1; maxSize := maxSize this |}
        | _ => {| vessels := JsMap.delete firstKey vessels1;
                  maxSize := maxSize this |}
        end
    | [] => {| vessels := vessels1; maxSize := maxSize this |}
    end
  else {| vessels := vessels1; maxSize := maxSize this |}.

Definition getAll (this : VesselStore) : list VesselPoint :=
  JsMap.values (vessels this).

Definition getCount (this : VesselStore) : Z := JsMap.size (vessels this).

Definition isAvailable (e : env) : bool := configured e "AISSTREAM_API_KEY".

(** ** Messages, in the shape the handler declares for them *)

Record PositionReportT : Type := {
  Cog : option number;
  Sog : option number;
  TrueHeading : option number;
  ShipType : option number;
  Latitude : option number;
  Longitude : option number;
  UserID : option Z
}.

(** [MMSI] is a number (an integer) or a string; [Latitude] and
    [Longitude] are read from the metadata through [any]. *)
Record MetadataT : Type := {
  MMSI : option (Z + jsstring);
  ShipName : option jsstring;
  meta_Latitude : option number;
  meta_Longitude : option number
}.

Record MessageT : Type := {
  PositionReport : option PositionReportT
}.

Record AisMessage : Type := {
  MessageType : option jsstring;
  Metadata : option MetadataT;
  Message : option MessageT
}.

Inductive payload : Type :=
| Connected (clientId : jsstring)
| Snapshot (vessels : list VesselPoint)
| Vessel (vessel : VesselPoint).

Record state : Type := {
  vesselStore : VesselStore;
  sseClients : JsMap.t nat;
  aisWs : option nat;
  reconnectTimer : option nat;
  isConnecting : bool;
  sockets : list WebSocket;
  next_timer : nat;
  trace : list (effect payload)
}.

Definition initial : state :=
  {| vesselStore := new_VesselStore; sseClients := []; aisWs := None;
     reconnectTimer := None; isConnecting := false; sockets := [];
     next_timer := 0; trace := [] |}.

Definition broadcastVessel (throws : nat -> bool) (vessel : VesselPoint)
    (st : state) : state :=
  let '(clients, tr) :=
    broadcast throws (Data (Vessel vessel)) (sseClients st) (trace st) in
  {| vesselStore := vesselStore st; sseClients := clients;
     aisWs := aisWs st; reconnectTimer := reconnectTimer st;
     isConnecting := isConnecting st; sockets := sockets st;
     next_timer := next_timer st; trace := tr |}.

Definition ws_open (st : state) : bool :=
  match aisWs st with
  | Some h =>
      match nth_error (sockets st) h with
      | Some ws => ReadyState_eqb (readyState ws) OPEN
      | None => false
      end
  | None => false
  end.

Definition scheduleReconnect (delay : Z) (st : state) : state :=
  let tr :=
    match reconnectTimer st with
    | Some t => trace st ++ [ClearTimeout t]
    | None => trace st
    end in
  {| vesselStore := vesselStore st; sseClients := sseClients st;
     aisWs := aisWs st; reconnectTimer := Some (next_timer st);
     isConnecting := isConnecting st; sockets := sockets st;
     next_timer := S (next_timer st);
     trace := tr ++ [SetTimeout (next_timer st) delay] |}.

(** [connectAISStream()]. *)
Definition connectAISStream (e : env) (ctor_throws : bool) (st : state)
  : state :=
  if negb (configured e "AISSTREAM_API_KEY") then st
  else if isConnecting st || ws_open st then st
  else if ctor_throws then
    scheduleReconnect 10000
      {| vesselStore := vesselStore st; sseClients := sseClients st;
         aisWs := aisWs st; reconnectTimer := reconnectTimer st;
         isConnecting := false; sockets := sockets st;
         next_timer := next_timer st; trace := trace st |}
  else
    let serverUrl := u "wss://stream.aisstream.io/v0/stream" in
    {| vesselStore := vesselStore st; sseClients := sseClients st;
       aisWs := Some (length (sockets st));
       reconnectTimer := reconnectTimer st;
       isConnecting := true;
       sockets := sockets st
                  ++ [{| url := serverUrl; readyState := CONNECTING |}];
       next_timer := next_timer st;
       trace := trace st ++ [NewWebSocket serverUrl] |}.

Inductive status : Type := connected | disconnected | disabled.

Definition getAISStreamStatus (e : env) (st : state) : status :=
  if negb (configured e "AISSTREAM_API_KEY") then disabled
  else
    match aisWs st with
    | None => disconnected
    | Some _ => if ws_open st then connected else disconnected
    end.

(** ** The ["message"] handler *)

(** [a ?? b]. *)
Definition nullish {A : Type} (a b : option A) : option A :=
  match a with
  | Some x => Some x
  | None => b
  end.

(** [msg.Message?.PositionReport]. *)
Definition position_of (msg : AisMessage) : option PositionReportT :=
  match Message msg with
  | Some m => PositionReport m
  | None => None
  end.

(** [pos?.F] for a field [F]. *)
Definition field {A B : Type} (o : option A) (f : A -> option B) : option B :=
  match o with
  | Some x => f x
  | None => None
  end.

(** [pos?.Latitude ?? meta?.Latitude] and the same for the longitude. *)
Definition latitude_of (msg : AisMessage) : option number :=
  nullish (field (position_of msg) Latitude)
          (field (Metadata msg) meta_Latitude).

Definition longitude_of (msg : AisMessage) : option number :=
  nullish (field (position_of msg) Longitude)
          (field (Metadata msg) meta_Longitude).

(** [String(z)] for an integer. *)
Definition String_of_Z (z : Z) : jsstring :=
  u (DecimalString.NilZero.string_of_int (Z.to_int z)).

(** [String(meta?.MMSI ?? pos?.UserID ?? "")]. *)
Definition mmsi_of (msg : AisMessage) : jsstring :=
  match field (Metadata msg) MMSI with
  | Some (inl z) => String_of_Z z
  | Some (inr s) => s
  | None =>
      match field (position_of msg) UserID with
      | Some z => String_of_Z z
      | None => []
      end
  end.

(** [!x] for an optional Number. *)
Definition falsy (x : option number) : bool :=
  match x with
  | Some v => negb (truthy v)
  | None => true
  end.

Definition from_option {A : Type} (d : A) (o : option A) : A :=
  match o with
  | Some x => x
  | None => d
  end.

(** [s.trim()]. *)
Definition trim (s : jsstring) : jsstring :=
  rev (trim_start (rev (trim_start s))).

(** The handler after [JSON.parse]: [parsed] is [None] when the parse, or
    the first property access on its result, throws (the handler ignores
    it); [now] is the value of [Date.now()]. *)
Definition on_message (throws : nat -> bool) (now : Z)
    (parsed : option AisMessage) (st : state) : state :=
  match parsed with
  | None => st
  | Some msg =>
      if negb (match MessageType msg with
               | Some t => JsMap.str_eqb t (u "PositionReport")
               | None => false
               end)
      then st
      else
        let meta := Metadata msg in
        let pos := position_of msg in
        let mmsi := mmsi_of msg in
        if falsy (latitude_of msg) || falsy (longitude_of msg)
           || match mmsi with [] => true | _ => false end
        then st
        else
          let lat := from_option NaN (latitude_of msg) in
          let lon := from_option NaN (longitude_of msg) in
          (* Validate coordinates *)
          if JsNumber.lt lat (of_Z (-90)) || gt lat (of_Z 90)
             || JsNumber.lt lon (of_Z (-180)) || gt lon (of_Z 180)
          then st
          (* Filter out 0,0 (null island) which is a common AIS error *)
          else if JsNumber.lt (Math_abs lat) (decimal_value false 1 (-2))
                  && JsNumber.lt (Math_abs lon) (decimal_value false 1 (-2))
          then st
          else
            let vessel :=
              {| mmsi := mmsi;
                 name := match field meta ShipName with
                         | Some n =>
                             match trim n with
                             | [] => mmsi
                             | t => t
                             end
                         | None => mmsi
                         end;
                 lat := lat;
                 lon := lon;
                 cog := from_option (of_Z 0) (field pos Cog);
                 sog := from_option (of_Z 0) (field pos Sog);
                 heading :=
                   from_option (of_Z 0)
                     (nullish (field pos TrueHeading) (field pos Cog));
                 time := of_Z now;
                 shipType := field pos ShipType |} in
            broadcastVessel throws vessel
              {| vesselStore := update vessel (vesselStore st);
                 sseClients := sseClients st; aisWs := aisWs st;
                 reconnectTimer := reconnectTimer st;
                 isConnecting := isConnecting st; sockets := sockets st;
                 next_timer := next_timer st; trace := trace st |}
  end.

(** A position report on the equator. *)
Definition equator_report : AisMessage :=
  {| MessageType := Some (u "PositionReport");
     Metadata := Some {| MMSI := Some (inl 227006760);
                         ShipName := Some (u "EQUATOR STAR  ");
                         meta_Latitude := None; meta_Longitude := None |};
     Message := Some {| PositionReport :=
                  Some {| Cog := Some (of_Z 90); Sog := Some (of_Z 12);
                          TrueHeading := Some (of_Z 91); ShipType := None;
                          Latitude := Some (of_Z 0);
                          Longitude := Some (parseFloat (u "-29.5"));
                          UserID := Some 227006760 |} |} |}.

End AisStream.

(* ------------------------------------------------------------------ *)
(** * The satellite procedures (routers.ts) *)

Module Satellites.

Import JsNumber JsString.

Record SatelliteRecord : Type := {
  id : Z;
  name : jsstring;
  latitude : number;
  longitude : number;
  altitude : number;
  category : option jsstring
}.

Record tracked_result : Type := {
  available : bool;
  message : option string;
  count : option Z;
  satellites : list SatelliteRecord
}.

(** What a procedure does: it returns a value or throws. *)
Inductive outcome (A : Type) : Type :=
| Returns (a : A)
| Throws (message : string).

Arguments Returns {A} a.
Arguments Throws {A} message.

Section Procedures.

(** The N2YO requests are answered by the network: [fetchAllSatellites]
    and [fetchPinnedPosition] are taken with their outcomes. *)
Variable fetchAllSatellites : jsstring -> outcome (list SatelliteRecord).
Variable fetchPinnedPosition :
  Z -> jsstring -> jsstring -> outcome SatelliteRecord.

(** [satellites.tracked]. *)
Definition tracked (e : Process.env) : outcome tracked_result :=
  match e "N2YO_API_KEY"%string with
  | Some (c :: k) =>
      let apiKey := c :: k in
      match fetchAllSatellites apiKey with
      | Returns sats =>
          Returns {| available := true; message := None;
                     count := Some (Z.of_nat (length sats));
                     satellites := sats |}
      | Throws _ =>
          Returns {| available := false;
                     message := Some "Failed to fetch satellite data"%string;
                     count := None; satellites := [] |}
      end
  | _ =>
      Returns {| available := false;
                 message := Some "N2YO API key not configured"%string;
                 count := None; satellites := [] |}
  end.

(** [satellites.position]. *)
Definition position (e : Process.env) (satId : Z) : outcome SatelliteRecord :=
  match e "N2YO_API_KEY"%string with
  | Some (c :: k) =>
      fetchPinnedPosition satId (AisStream.String_of_Z satId) (c :: k)
  | _ => Throws "N2YO API key not configured"
  end.

End Procedures.

End Satellites.

(* ------------------------------------------------------------------ *)
(** * Vocabulary of the properties *)

Module Props.

Import JsNumber JsString Buffer Net.

(** Whether a string starts with a code unit of a class. *)
Definition starts_in (cls : code_unit -> bool) (s : jsstring) : bool :=
  match s with c :: _ => cls c | [] => false end.

(** A code unit that is a code point of its own: in the basic plane and
    not a surrogate. *)
Definition is_bmp_scalar (c : code_unit) : bool :=
  in_range 0 0xD7FF c || in_range 0xE000 0xFFFF c.

(** The decoder run over some bytes: the state reached and the output. *)
Fixpoint utf8_steps (st : utf8_state) (b : Buffer) : utf8_state * jsstring :=
  match b with
  | x :: b' =>
      let '(st1, out1) := utf8_step st x in
      let '(st2, out2) := utf8_steps st1 b' in
      (st2, out1 ++ out2)
  | [] => (st, [])
  end.

Definition utf8_state_eqb (a b : utf8_state) : bool :=
  (cp a =? cp b) && (needed a =? needed b)
  && (lower a =? lower b) && (upper a =? upper b).

(** The bytes of [c] are decoded to [c], and leave the decoder idle. *)
Definition unit_roundtrip (c : code_unit) : bool :=
  let '(st, out) := utf8_steps utf8_init (utf8_bytes c) in
  utf8_state_eqb st utf8_init && JsMap.str_eqb out [c].

(** [unit_roundtrip] on every scalar code unit below [n]. *)
Definition roundtrip_below (n : N) : Z * bool :=
  N.iter n (fun '(c, ok) =>
              (c + 1, ok && (negb (is_bmp_scalar c) || unit_roundtrip c)))
    (0, true).
(** Numbers that are not negative finite values. *)
Definition not_negative (x : number) : Prop :=
  match x with
  | S754_finite true _ _ => False
  | _ => True
  end.

(** The store holds the last [c] strikes of the history [h]. *)
Definition holds (c : nat) (h : list Store.LightningStrike)
    (st : Store.LightningStore) : Prop :=
  Store.strikes st = Store.lastn c h
  /\ Store.total st = Z.of_nat (length h)
  /\ Store.maxSize st = Z.of_nat c.

Section Registry.
Context {P : Type}.
Variable throws : nat -> bool.

(** The write a broadcast attempts on a registry entry. *)
Definition attempt (data : chunk P) (entry : jsstring * nat) : effect P :=
  if throws (snd entry)
  then ResWriteThrew (snd entry) data
  else ResWrite (snd entry) data.

(** The entries whose write throws, and the others. *)
Definition failing (clients : JsMap.t nat) : JsMap.t nat :=
  filter (fun kv => throws (snd kv)) clients.

Definition alive (clients : JsMap.t nat) : JsMap.t nat :=
  filter (fun kv => negb (throws (snd kv))) clients.

End Registry.

(** Broadcasts one after the other, on a registry and a trace. *)
Definition broadcast_all {P : Type} (ps : list ((nat -> bool) * chunk P))
    (acc : JsMap.t nat * list (effect P)) : JsMap.t nat * list (effect P) :=
  fold_left
    (fun acc '(throws, data) => broadcast throws data (fst acc) (snd acc))
    ps acc.

(** A registry as the handlers build it: no identifier and no response
    is registered twice. *)
Definition registry_ok (clients : JsMap.t nat) : Prop :=
  NoDup (JsMap.keys clients) /\ NoDup (JsMap.values clients).

(** Publishing strikes one after the other. *)
Definition publish_all
    (ps : list ((nat -> bool) * Store.LightningStrike))
    (st : LightningWs.state) : LightningWs.state :=
  fold_left (fun st '(throws, strike) =>
               LightningWs.broadcastLightning throws strike st) ps st.

(** Calling [connectBlitzortung] repeatedly. *)
Definition connect_many (ctor_throws : list bool) (st : LightningWs.state)
  : LightningWs.state :=
  fold_left (fun st b => LightningWs.connectBlitzortung b st) ctor_throws st.

End Props.

(* ================================================================== *)
(** * Properties *)

(* ------------------------------------------------------------------ *)
(** ** Numbers *)

Section NumberFacts.
Import JsNumber Props.

Lemma SFcompare_antisym (x y : spec_float) (c : comparison) :
  SFcompare x y = Some c -> SFcompare y x = Some (CompOpp c).
Proof.
  destruct x as [sx|sx| |sx mx ex], y as [sy|sy| |sy my ey]; simpl;
    try discriminate; intros [= <-]; try (destruct sx; reflexivity);
    try (destruct sy; reflexivity); try (destruct sx, sy; reflexivity).
  change (PosDef.Pos.compare_cont Eq mx my) with (Pos.compare mx my).
  change (PosDef.Pos.compare_cont Eq my mx) with (Pos.compare my mx).
  rewrite (Z.compare_antisym ex ey), (Pos.compare_antisym mx my).
  destruct sx, sy, (ex ?= ey), (Pos.compare mx my); reflexivity.
Qed.

Lemma le_not_gt (x y : number) : le x y = true -> gt x y = false.
Proof.
  unfold le, gt, SFleb, SFltb.
  destruct (SFcompare x y) as [c|] eqn:E; [|discriminate].
  rewrite (SFcompare_antisym _ _ _ E). destruct c; simpl; congruence.
Qed.

Lemma le_not_lt (x y : number) : le x y = true -> lt y x = false.
Proof. exact (le_not_gt x y). Qed.

(** Rounding keeps the sign it is given, so a quotient of non-negative
    Numbers is not negative. *)
Lemma round_aux_sign m e l :
  not_negative (binary_round_aux prec emax false m e l).
Proof.
  unfold binary_round_aux.
  destruct (shr_fexp prec emax m e l) as [mrs e'].
  destruct (shr_fexp prec emax _ e' loc_Exact) as [mrs' e''].
  destruct (shr_m mrs'); [exact I | | exact I].
  destruct (Z.leb e'' (Z.sub emax prec)); exact I.
Qed.

Lemma of_Z_not_negative z : 0 <= z -> not_negative (of_Z z).
Proof.
  intros Hz. unfold of_Z, binary_normalize. destruct z; simpl; auto; [|lia].
  unfold binary_round. destruct (shl_align _ _ _). apply round_aux_sign.
Qed.

Lemma div_not_negative x my ey :
  not_negative x -> not_negative (div x (S754_finite false my ey)).
Proof.
  unfold div. destruct x as [s|s| |s m e]; simpl; auto.
  destruct s; [contradiction|]. intros _.
  destruct (SFdiv_core_binary prec emax (Z.pos m) e (Z.pos my) ey)
    as [[mz ez] lz].
  apply round_aux_sign.
Qed.

(** On Numbers that are not negative, [Math.floor] truncates. *)
Lemma floor_trunc x : not_negative x -> Math_floor x = Math_trunc x.
Proof.
  destruct x as [s|s| |s m e]; simpl; auto.
  destruct s; [contradiction|]. intros _. simpl.
  destruct (0 <=? e) eqn:He; [reflexivity|].
  apply Z.leb_gt in He.
  rewrite Z.shiftr_div_pow2 by lia.
  rewrite Z.quot_div_nonneg; [reflexivity | lia | lia].
Qed.

End NumberFacts.

(* ------------------------------------------------------------------ *)
(** ** Cleaning an obfuscated frame *)

Section CleaningFacts.
Import JsNumber JsString Frame Props.

Lemma is_digit_ascii c : is_digit c = true -> is_ascii c = true.
Proof. unfold is_digit, is_ascii. lia. Qed.

Lemma forallb_impl {A} (p q : A -> bool) (l : list A) :
  (forall x, p x = true -> q x = true) ->
  forallb p l = true -> forallb q l = true.
Proof.
  intros Hpq. induction l as [|x l IH]; simpl; [reflexivity|].
  intros H. apply andb_prop in H as [Hx H]. now rewrite (Hpq x Hx), IH.
Qed.

(** Replacing the two substitutes and stripping what is not ASCII undoes
    the obfuscation of an ASCII text. *)
Lemma clean_obfuscated (wire : jsstring) : forall clean,
  forallb is_ascii clean = true ->
  obfuscated clean wire = true ->
  strip_non_ascii (replace_all e_ogonek comma (replace_all C_acute colon wire))
  = clean.
Proof.
  unfold strip_non_ascii, replace_all.
  induction wire as [|x wire IH]; intros clean Hc H; simpl in H.
  - destruct clean; [reflexivity | discriminate].
  - simpl. destruct (is_noise x) eqn:Hn.
    + unfold is_noise in Hn.
      apply andb_prop in Hn as [Hn He]. apply andb_prop in Hn as [Ha Hx].
      apply negb_true_iff in Ha, Hx, He.
      rewrite Hx, He, Ha. auto.
    + destruct clean as [|c clean]; [discriminate|].
      simpl in Hc. apply andb_prop in Hc as [Hc0 Hc].
      apply andb_prop in H as [Hx H].
      rewrite (IH clean Hc H).
      unfold is_ascii, C_acute, e_ogonek, colon, comma in *.
      destruct (Z.eqb_spec x 262), (Z.eqb_spec x c), (Z.eqb_spec x 281),
        (Z.eqb_spec c 58), (Z.eqb_spec c 44); simpl in *; subst;
        try discriminate; try lia; try reflexivity;
        try (rewrite Hc0; reflexivity).
Qed.

End CleaningFacts.

(* ------------------------------------------------------------------ *)
(** ** Matching the field patterns *)

Ltac eval_u :=
  repeat match goal with
         | |- context [JsString.u ?s] =>
             let v := eval vm_compute in (JsString.u s) in
             change (JsString.u s) with v
         end.

Section MatcherFacts.
Import JsNumber JsString Blitzortung Frame Props.

Lemma span_digits_app (ds rest : jsstring) :
  forallb is_digit ds = true -> starts_in is_digit rest = false ->
  span_digits (ds ++ rest) = (ds, rest).
Proof.
  intros Hd Hr. induction ds as [|c ds IH]; simpl in *.
  - destruct rest as [|r rest]; [reflexivity|]. simpl in *. now rewrite Hr.
  - apply andb_prop in Hd as [Hc Hd]. now rewrite Hc, (IH Hd).
Qed.

Lemma span_digits_all (ds : jsstring) :
  forallb is_digit ds = true -> span_digits ds = (ds, []).
Proof.
  intros H. rewrite <- (app_nil_r ds) at 1. now apply span_digits_app.
Qed.

Lemma class_plus_stop {R} cls (rest : jsstring) (k : jsstring -> option R) :
  starts_in cls rest = false -> class_plus cls rest k = None.
Proof.
  destruct rest as [|c rest]; simpl; [reflexivity|]. now intros ->.
Qed.

(** A greedy class run takes a whole token when the continuation accepts
    what follows it. *)
Lemma class_plus_app {R} cls (tok rest : jsstring)
    (k : jsstring -> option R) (r : R) :
  tok <> [] -> forallb cls tok = true -> starts_in cls rest = false ->
  k rest = Some r ->
  class_plus cls (tok ++ rest) k = Some r.
Proof.
  intros Hne Hall Hrest Hk.
  induction tok as [|c tok IH]; [congruence|].
  simpl in *. apply andb_prop in Hall as [Hc Hall]. rewrite Hc.
  destruct tok as [|c' tok].
  - simpl. now rewrite (class_plus_stop cls rest k Hrest).
  - rewrite IH; [reflexivity | discriminate | assumption].
Qed.

Lemma firstn_consumed {A} (tok rest : list A) :
  firstn (length (tok ++ rest) - length rest) (tok ++ rest) = tok.
Proof.
  rewrite length_app, Nat.add_sub.
  rewrite firstn_app, Nat.sub_diag, firstn_all. simpl. apply app_nil_r.
Qed.

(** The field pattern at a position that does not open a match. *)
Lemma run_field_mismatch {R} (k0 : code_unit) (key : jsstring) cls c s cap
    (k : jsstring -> option jsstring -> option R) :
  c <> dquote -> c <> k0 ->
  run (field_regex (k0 :: key) cls) (c :: s) cap k = None.
Proof.
  intros H1 H2. unfold field_regex. simpl.
  apply Z.eqb_neq in H1, H2. now rewrite H1, H2.
Qed.

Lemma str_match_skip (k0 : code_unit) key cls (pre s : jsstring) :
  forallb (fun c => negb (c =? dquote) && negb (c =? k0)) pre = true ->
  str_match (field_regex (k0 :: key) cls) (pre ++ s)
  = str_match (field_regex (k0 :: key) cls) s.
Proof.
  induction pre as [|c pre IH]; intros H; [reflexivity|].
  simpl in H. apply andb_prop in H as [Hc H]. apply andb_prop in Hc as [H1 H2].
  apply negb_true_iff, Z.eqb_neq in H1, H2.
  change ((c :: pre) ++ s) with (c :: (pre ++ s)).
  cbn [str_match]. rewrite run_field_mismatch by assumption. auto.
Qed.

Lemma str_match_miss r c s :
  run r (c :: s) None (fun _ cap => Some cap) = None ->
  str_match r (c :: s) = str_match r s.
Proof. intros H. cbn [str_match]. now rewrite H. Qed.

Lemma str_match_hit r s cap :
  run r s None (fun _ cap => Some cap) = Some cap ->
  str_match r s = Some cap.
Proof. intros H. destruct s; cbn [str_match]; now rewrite H. Qed.

(** At its key, a field pattern captures the token that follows the
    colon. *)
Lemma run_at_key (k : string) cls (tok rest : jsstring) :
  k = "time"%string \/ k = "lat"%string \/ k = "lon"%string ->
  tok <> [] -> forallb cls tok = true -> starts_in cls rest = false ->
  run (field_regex (u k) cls) (key k ++ colon :: tok ++ rest) None
    (fun _ cap => Some cap)
  = Some (Some tok).
Proof.
  intros Hk Hne Hall Hrest.
  assert (E : class_plus cls (tok ++ rest)
                (fun rest0 =>
                   Some (Some (firstn (length (tok ++ rest) - length rest0)
                                 (tok ++ rest))))
              = Some (Some tok)).
  { apply class_plus_app; auto. now rewrite firstn_consumed. }
  destruct Hk as [-> | [-> | ->]]; unfold field_regex, key; eval_u;
    cbn -[class_plus firstn length];
    match goal with
    | |- match match ?X with _ => _ end with _ => _ end = _ =>
        replace X with (Some (Some tok)) by (symmetry; exact E)
    end; reflexivity.
Qed.

Lemma coord_not_opening c :
  class_coord c = true -> negb (c =? dquote) && negb (c =? 108) = true.
Proof. unfold class_coord, is_digit, dquote. lia. Qed.

Lemma digit_coord c : is_digit c = true -> class_coord c = true.
Proof. unfold class_coord. intros ->. now rewrite orb_true_r. Qed.

Lemma render_coord d :
  wf_decimal d = true -> forallb class_coord (render d) = true.
Proof.
  unfold wf_decimal, render. intros H.
  apply andb_prop in H as [H Hf]. apply andb_prop in H as [_ Hi].
  apply (forallb_impl _ _ _ digit_coord) in Hi, Hf.
  rewrite !forallb_app, Hi.
  destruct (d_neg d), (d_frac d); simpl in *; auto.
Qed.

Lemma render_nonempty d : wf_decimal d = true -> render d <> [].
Proof.
  unfold wf_decimal, render. intros H.
  apply andb_prop in H as [H _]. apply andb_prop in H as [H _].
  destruct (d_neg d); [discriminate|].
  destruct (d_int d); [discriminate|]. discriminate.
Qed.

Lemma render_ascii d :
  wf_decimal d = true -> forallb is_ascii (render d) = true.
Proof.
  intros H. apply (forallb_impl class_coord); [|now apply render_coord].
  unfold class_coord, is_digit, is_ascii. lia.
Qed.

Lemma wf_digits_nonempty t : wf_digits t = true -> t <> [].
Proof. unfold wf_digits. destruct t; [discriminate | discriminate]. Qed.

Lemma wf_digits_all t : wf_digits t = true -> forallb is_digit t = true.
Proof. unfold wf_digits. intros H. now apply andb_prop in H as [_ ?]. Qed.

End MatcherFacts.

(* ------------------------------------------------------------------ *)
(** ** The three fields of a record text *)

Section RecordMatch.
Import JsNumber JsString Blitzortung Frame Props.

Variables (t : jsstring) (la lo : decimal).
Hypothesis Ht : wf_digits t = true.
Hypothesis Hla : wf_decimal la = true.
Hypothesis Hlo : wf_decimal lo = true.

Ltac miss := rewrite str_match_miss by (cbn; reflexivity).

Ltac skip_digits :=
  rewrite str_match_skip;
  [| apply (forallb_impl is_digit); [|now apply wf_digits_all];
     intros c Hc; now apply coord_not_opening, digit_coord ].

Ltac skip_coord :=
  rewrite str_match_skip;
  [| apply (forallb_impl class_coord); [|now apply render_coord];
     apply coord_not_opening ].

Lemma match_time :
  str_match time_regex (record_text t la lo) = Some (Some t).
Proof.
  unfold record_text. eval_u. cbn [app]. miss.
  apply str_match_hit. apply (run_at_key "time");
    auto using wf_digits_nonempty, wf_digits_all.
Qed.

Lemma match_lat :
  str_match lat_regex (record_text t la lo) = Some (Some (render la)).
Proof.
  unfold record_text, key. eval_u. cbn [app]. repeat miss.
  unfold lat_regex. eval_u. skip_digits. repeat miss.
  apply str_match_hit. apply (run_at_key "lat");
    auto using render_nonempty, render_coord.
Qed.

Lemma match_lon :
  str_match lon_regex (record_text t la lo) = Some (Some (render lo)).
Proof.
  unfold record_text, key. eval_u. cbn [app]. repeat miss.
  unfold lon_regex. eval_u. skip_digits. repeat miss.
  skip_coord. repeat miss.
  apply str_match_hit. apply (run_at_key "lon");
    auto using render_nonempty, render_coord.
Qed.

Lemma record_text_ascii : forallb is_ascii (record_text t la lo) = true.
Proof.
  pose proof (forallb_impl _ _ _ is_digit_ascii (wf_digits_all t Ht)) as Hd.
  unfold record_text, key. eval_u.
  repeat (cbn [forallb app];
          rewrite ?forallb_app, ?Hd, ?render_ascii by assumption).
  reflexivity.
Qed.

End RecordMatch.

(* ------------------------------------------------------------------ *)
(** ** Parsing the captured tokens *)

Section ParserFacts.
Import JsNumber JsString Blitzortung Frame Props.

Lemma digit_not_space c : is_digit c = true -> is_space c = false.
Proof.
  unfold is_digit, is_space. intros H. cbn [existsb].
  repeat match goal with
         | |- context [?a =? ?b] => destruct (Z.eqb_spec a b); [lia|]
         end.
  simpl. lia.
Qed.

Lemma digit_no_sign c s :
  is_digit c = true -> take_sign (c :: s) = (false, c :: s).
Proof.
  intros Hc. unfold take_sign.
  replace (c =? 45) with false by (unfold is_digit in Hc; lia).
  replace (c =? 43) with false by (unfold is_digit in Hc; lia).
  reflexivity.
Qed.

Lemma digits_fold_nonneg (ds : jsstring) : forall a,
  0 <= a -> forallb is_digit ds = true ->
  0 <= fold_left (fun acc c => 10 * acc + (c - 48)) ds a.
Proof.
  induction ds as [|c ds IH]; cbn [fold_left forallb]; intros a Ha H;
    [assumption|].
  apply andb_prop in H as [Hc H].
  apply IH; [|assumption]. unfold is_digit in Hc. lia.
Qed.

Lemma digits_value_nonneg (ds : jsstring) :
  forallb is_digit ds = true -> 0 <= digits_value ds.
Proof. apply digits_fold_nonneg. lia. Qed.

(** [parseInt] of a run of digits is the Number of its value. *)
Lemma parseInt10_digits (t : jsstring) :
  wf_digits t = true -> parseInt10 t = of_Z (digits_value t).
Proof.
  intros H. pose proof (wf_digits_all t H) as Hd.
  destruct t as [|c t]; [discriminate|].
  pose proof Hd as Hc. simpl in Hc. apply andb_prop in Hc as [Hc _].
  unfold parseInt10. cbn [trim_start]. rewrite (digit_not_space c Hc).
  rewrite (digit_no_sign c t Hc), (span_digits_all _ Hd).
  destruct (digits_value (c :: t) =? 0) eqn:E; [|reflexivity].
  apply Z.eqb_eq in E. now rewrite E.
Qed.

(** [parseFloat] of a decimal as it is written is the Number it denotes. *)
Lemma parseFloat_render (d : decimal) :
  wf_decimal d = true -> parseFloat (render d) = value d.
Proof.
  unfold wf_decimal. intros H.
  apply andb_prop in H as [H Hf]. apply andb_prop in H as [Hne Hi].
  destruct d as [sg ip fp]. unfold render, value.
  cbn [d_neg d_int d_frac] in *.
  destruct ip as [|c ip]; [discriminate|].
  pose proof Hi as Hc. simpl in Hc. apply andb_prop in Hc as [Hc _].
  match goal with
  | |- parseFloat (_ ++ _ ++ ?T) = _ => set (tail := T)
  end.
  assert (Hsign : take_sign (trim_start ((if sg then [45] else [])
                                           ++ (c :: ip) ++ tail))
                  = (sg, (c :: ip) ++ tail)).
  { destruct sg; cbn [app trim_start]; [reflexivity|].
    now rewrite (digit_not_space c Hc), (digit_no_sign c _ Hc). }
  unfold parseFloat. rewrite Hsign.
  replace (starts_with (u "Infinity") _) with false.
  2:{ eval_u. cbn [app starts_with].
      replace (73 =? c) with false by (unfold is_digit in Hc; lia).
      reflexivity. }
  rewrite span_digits_app; [|assumption|subst tail; destruct fp; reflexivity].
  subst tail. destruct fp as [|f fp].
  - simpl length. rewrite app_nil_r. reflexivity.
  - replace (46 =? 46) with true by reflexivity.
    rewrite (span_digits_all _ Hf). reflexivity.
Qed.

(** The normalisation of the decoder is the truncating one on the time
    stamps it can read. *)
Lemma normalise_code (n : Z) :
  0 <= n ->
  (if gt (of_Z n) (of_Z (10 ^ 15))
   then Math_floor (div (of_Z n) (of_Z (10 ^ 6)))
   else of_Z n) = normalise (of_Z n).
Proof.
  intros Hn. unfold normalise. destruct (gt _ _); [|reflexivity].
  apply floor_trunc.
  assert (exists m e, of_Z (10 ^ 6) = S754_finite false m e) as (m & e & ->)
    by (vm_compute; eauto).
  apply div_not_negative, of_Z_not_negative, Hn.
Qed.

Lemma in_range_check la lo :
  lat_in_range la = true -> lon_in_range lo = true ->
  lt la (of_Z (-90)) || gt la (of_Z 90)
  || lt lo (of_Z (-180)) || gt lo (of_Z 180) = false.
Proof.
  unfold lat_in_range, lon_in_range. intros H1 H2.
  apply andb_prop in H1 as [H1 Ha2]. apply andb_prop in H1 as [_ Ha1].
  apply andb_prop in H2 as [H2 Ho2]. apply andb_prop in H2 as [_ Ho1].
  rewrite (le_not_lt _ _ Ha1), (le_not_lt _ _ Ho1).
  rewrite (le_not_gt _ _ Ha2), (le_not_gt _ _ Ho2). reflexivity.
Qed.

End ParserFacts.

(* ------------------------------------------------------------------ *)
(** ** Reading back the bytes of a string *)

Section Utf8Facts.
Import JsString Buffer Props.

Lemma utf8_decode_steps (b rest : Buffer) : forall st,
  utf8_decode st (b ++ rest)
  = snd (utf8_steps st b) ++ utf8_decode (fst (utf8_steps st b)) rest.
Proof.
  induction b as [|x b IH]; intros st; simpl; [reflexivity|].
  destruct (utf8_step st x) as [st1 out1].
  rewrite IH. destruct (utf8_steps st1 b) as [st2 out2]. simpl.
  now rewrite app_assoc.
Qed.

Lemma utf8_state_eqb_eq a b : utf8_state_eqb a b = true -> a = b.
Proof.
  unfold utf8_state_eqb. destruct a, b; simpl. intros H.
  apply andb_prop in H as [H H4]. apply andb_prop in H as [H H3].
  apply andb_prop in H as [H1 H2].
  apply Z.eqb_eq in H1, H2, H3, H4. congruence.
Qed.

Lemma roundtrip_below_all :
  forall c, is_bmp_scalar c = true -> unit_roundtrip c = true.
Proof.
  assert (Inv : forall n,
            fst (roundtrip_below n) = Z.of_N n
            /\ (snd (roundtrip_below n) = true ->
                forall c, 0 <= c < Z.of_N n -> is_bmp_scalar c = true ->
                          unit_roundtrip c = true)).
  { unfold roundtrip_below. induction n as [|m [IH1 IH2]] using N.peano_ind.
    - simpl. split; [reflexivity|]. intros _ c Hc. lia.
    - rewrite N.iter_succ.
      destruct (N.iter m _ (0, true)) as [c0 ok]. simpl in *. subst c0.
      split; [lia|]. intros H c Hc Hs. apply andb_prop in H as [Hok Hm'].
      destruct (Z.eq_dec c (Z.of_N m)) as [-> | Hne].
      + rewrite Hs in Hm'. exact Hm'.
      + apply IH2; auto. lia. }
  assert (E : snd (roundtrip_below 0x10000) = true)
    by (vm_compute; reflexivity).
  intros c Hc. apply (proj2 (Inv 0x10000%N) E c); [|assumption].
  unfold is_bmp_scalar, in_range in Hc. lia.
Qed.

Lemma bmp_not_surrogate c :
  is_bmp_scalar c = true ->
  is_high_surrogate c = false /\ is_low_surrogate c = false.
Proof.
  unfold is_bmp_scalar, is_high_surrogate, is_low_surrogate, in_range. lia.
Qed.

(** A string of scalar code units is read back from its bytes. *)
Lemma toString_from (s : jsstring) :
  forallb is_bmp_scalar s = true -> toString_utf8 (Buffer_from s) = s.
Proof.
  unfold toString_utf8. induction s as [|c s IH]; simpl; [reflexivity|].
  intros H. apply andb_prop in H as [Hc Hs].
  destruct (bmp_not_surrogate c Hc) as [-> ->].
  rewrite utf8_decode_steps.
  pose proof (roundtrip_below_all c Hc) as R. unfold unit_roundtrip in R.
  destruct (utf8_steps utf8_init (utf8_bytes c)) as [st out].
  apply andb_prop in R as [R1 R2].
  apply utf8_state_eqb_eq in R1. subst st.
  simpl. rewrite (IH Hs).
  revert R2. clear. destruct out as [|x [|y out]]; simpl.
  - discriminate.
  - rewrite andb_true_r. intros E. apply Z.eqb_eq in E. now subst.
  - rewrite andb_false_r. discriminate.
Qed.

End Utf8Facts.

(* ------------------------------------------------------------------ *)
(** ** The decoder *)

Section DecoderProperties.
Import JsNumber JsString Buffer Blitzortung Frame Props.

(** What the range check of the decoder does establish: a coordinate it
    lets through is in range, or is NaN. *)
Lemma decode_range_or_nan (b : Buffer) (d : Decoded) :
  decodeBlitzortung b = Some d ->
  (lat d = NaN \/ lat_in_range (lat d) = true)
  /\ (lon d = NaN \/ lon_in_range (lon d) = true).
Proof.
  unfold decodeBlitzortung.
  destruct (str_match time_regex _) as [tm|]; [|discriminate].
  destruct (str_match lat_regex _) as [lam|]; [|discriminate].
  destruct (str_match lon_regex _) as [lom|]; [|discriminate].
  destruct (_ || _) eqn:E; [discriminate|]. intros [= <-]. simpl.
  apply orb_false_iff in E as [E E4]. apply orb_false_iff in E as [E E3].
  apply orb_false_iff in E as [E1 E2].
  assert (R : forall x lo hi m1 e1 m2 e2,
             lo = S754_finite true m1 e1 -> hi = S754_finite false m2 e2 ->
             JsNumber.lt x lo = false -> gt x hi = false ->
             x = NaN \/ isFinite x && le lo x && le x hi = true).
  { intros x lo hi m1 e1 m2 e2 -> -> L G.
    unfold JsNumber.lt, gt, le, SFltb, SFleb in *.
    destruct (SFcompare x (S754_finite true m1 e1)) as [c1|] eqn:C1.
    2:{ left. destruct x; simpl in C1; try discriminate; reflexivity. }
    destruct (SFcompare (S754_finite false m2 e2) x) as [c2|] eqn:C2.
    2:{ left. destruct x; simpl in C2; try discriminate; reflexivity. }
    right.
    rewrite (SFcompare_antisym _ _ _ C1), (SFcompare_antisym _ _ _ C2).
    destruct x as [s|s| |s m e]; try discriminate.
    - destruct c1, c2; simpl in *; try discriminate; reflexivity.
    - destruct s; simpl in C1, C2; injection C1 as <-; injection C2 as <-;
        discriminate.
    - destruct c1, c2; simpl in *; try discriminate; reflexivity. }
  split; eapply R; eauto; reflexivity.
Qed.



(** Numbers are binary64: a timestamp beyond [2^53] is rounded when it
    is read and again when it is divided, so the milliseconds are those of
    the rounded quotient. *)
Example normalise_rounded_quotient :
  normalise (of_Z 1700000000000999999) = of_Z 1700000000001.
Proof. vm_compute. reflexivity. Qed.

(** C2.  The frame [{"time":1700000000000123000,"lat":-,"lon":139.6}] is
    decoded to an event whose latitude is NaN, which is neither finite nor
    in range, and the message handler stores that event. *)
Theorem nan_latitude_is_decoded_and_stored :
  decodeBlitzortung minus_frame
  = Some {| lat := NaN;
            lon := value (dec false "139" "6");
            time := of_Z 1700000000000 |}
  /\ isFinite NaN = false
  /\ lat_in_range NaN = false
  /\ Store.strikes
       (LightningWs.lightningStore
          (LightningWs.on_message (fun _ => false) (inl minus_frame)
             (u "V1StGXR8")
             LightningWs.initial))
     = [{| Store.lat := NaN;
           Store.lon := value (dec false "139" "6");
           Store.time := of_Z 1700000000000;
           Store.id := u "V1StGXR8" |}].
Proof. repeat split; vm_compute; reflexivity. Qed.

End DecoderProperties.

(* ------------------------------------------------------------------ *)
(** ** The lightning store *)

Section StoreProperties.
Import JsNumber JsArray Store Props.

Lemma slice_last {A} (n : Z) (l : list A) :
  0 < n -> slice (- n) l = lastn (Z.to_nat n) l.
Proof.
  intros Hn. unfold slice, lastn.
  replace (- n <? 0) with true by lia. f_equal. lia.
Qed.

Lemma slice_zero {A} (l : list A) : slice 0 l = l.
Proof.
  unfold slice. simpl. now replace (Z.to_nat _) with 0%nat by lia.
Qed.

Lemma lastn_short {A} (c : nat) (l : list A) :
  (length l <= c)%nat -> lastn c l = l.
Proof.
  intros H. unfold lastn. now replace (length l - c)%nat with 0%nat by lia.
Qed.

Lemma lastn_length {A} (c : nat) (l : list A) :
  length (lastn c l) = Nat.min c (length l).
Proof. unfold lastn. rewrite length_skipn. lia. Qed.

Lemma lastn_lastn {A} (c : nat) (l : list A) :
  lastn c (lastn c l) = lastn c l.
Proof. apply lastn_short. rewrite lastn_length. lia. Qed.

(** Appending to the last [c] elements and keeping the last [c] again
    forgets the oldest one. *)
Lemma lastn_snoc {A} (c : nat) (h : list A) (x : A) :
  (1 <= c)%nat -> lastn c (lastn c h ++ [x]) = lastn c (h ++ [x]).
Proof.
  intros Hc. unfold lastn at 1 3.
  rewrite !length_app, lastn_length. simpl length.
  unfold lastn.
  destruct (Nat.le_gt_cases (length h) c) as [Hle | Hgt].
  - replace (length h - c)%nat with 0%nat by lia. simpl skipn.
    f_equal. lia.
  - rewrite !skipn_app, skipn_skipn, length_skipn. f_equal.
    + f_equal. lia.
    + f_equal. lia.
Qed.

Lemma holds_add (c : nat) h st x :
  (1 <= c)%nat -> holds c h st -> holds c (h ++ [x]) (add x st).
Proof.
  intros Hc (Hs & Ht & Hm). unfold holds, add.
  rewrite Hs, Ht, Hm, length_app, lastn_length. simpl length.
  destruct (Z.ltb_spec (Z.of_nat c) (Z.of_nat (Nat.min c (length h) + 1)))
    as [Hfull | Hroom]; cbn [strikes total maxSize].
  - rewrite slice_last by lia. rewrite Nat2Z.id, lastn_snoc by lia.
    repeat split; try reflexivity. rewrite length_app. simpl. lia.
  - assert (Hlen : (length h < c)%nat)
      by (destruct (Nat.min_spec c (length h)) as [[? E] | [? E]];
          rewrite E in Hroom; lia).
    rewrite (lastn_short c h) by lia.
    rewrite (lastn_short c (h ++ [x])) by (rewrite length_app; simpl; lia).
    repeat split; try reflexivity. rewrite length_app. simpl. lia.
Qed.

Lemma holds_add_all (c : nat) l : forall h st,
  (1 <= c)%nat -> holds c h st -> holds c (h ++ l) (add_all l st).
Proof.
  induction l as [|x l IH]; intros h st Hc H; simpl.
  - now rewrite app_nil_r.
  - replace (h ++ x :: l) with ((h ++ [x]) ++ l) by now rewrite <- app_assoc.
    apply IH; [assumption|]. now apply holds_add.
Qed.

Lemma holds_empty (c : nat) : holds c [] (empty_store (Z.of_nat c)).
Proof. repeat split. Qed.

Lemma holds_run ops : forall h st,
  holds 500 h st -> holds 500 (h ++ inserted ops) (run ops st).
Proof.
  induction ops as [|o ops IH]; intros h st H; simpl.
  - now rewrite app_nil_r.
  - destruct o; simpl; try (apply IH; assumption).
    replace (h ++ strike :: inserted ops)
      with ((h ++ [strike]) ++ inserted ops) by now rewrite <- app_assoc.
    apply IH. apply holds_add; [lia | assumption].
Qed.

(** For a positive [n], [getRecent n] is the last [n] strikes, all of
    them when there are fewer. *)
Lemma getRecent_last (n : Z) (st : LightningStore) :
  0 < n -> getRecent n st = lastn (Z.to_nat n) (strikes st).
Proof. intros Hn. unfold getRecent. now apply slice_last. Qed.

(** C3.  From an empty store of capacity [c >= 1], after inserting the
    [c + k] strikes of [l] with [k > 0], [getRecent c] is the last [c]
    strikes of [l] in insertion order and [getTotal] is [c + k]; at
    capacity 3, inserting A, B, C, D leaves [B; C; D] and a total of 4. *)
Theorem store_keeps_last_capacity :
  (forall (c k : Z) (l : list LightningStrike),
      0 < c -> 0 < k -> Z.of_nat (length l) = c + k ->
      getRecent c (add_all l (empty_store c)) = lastn (Z.to_nat c) l
      /\ getTotal (add_all l (empty_store c)) = c + k)
  /\ (forall A B C D : LightningStrike,
         strikes (add_all [A; B; C; D] (empty_store 3)) = [B; C; D]
         /\ getTotal (add_all [A; B; C; D] (empty_store 3)) = 4).
Proof.
  split.
  - intros c k l Hc Hk Hl.
    destruct (holds_add_all (Z.to_nat c) l [] (empty_store c))
      as (Hs & Ht & _).
    + lia.
    + rewrite <- (Z2Nat.id c) at 2 by lia. apply holds_empty.
    + simpl in Hs, Ht. unfold getTotal. rewrite Ht, Hl.
      rewrite getRecent_last, Hs, lastn_lastn by lia. auto.
  - intros A B C D. split; reflexivity.
Qed.

Lemma store_keeps_last_capacity_witness :
  getRecent 3 (add_all (map strike_at [0; 1; 2; 3]) (empty_store 3))
  = lastn 3 (map strike_at [0; 1; 2; 3])
  /\ getTotal (add_all (map strike_at [0; 1; 2; 3]) (empty_store 3)) = 3 + 1.
Proof.
  apply (proj1 store_keeps_last_capacity 3 1 (map strike_at [0; 1; 2; 3]));
    [lia | lia | reflexivity].
Defined.

(** C4.  After any sequence of operations on a new store, the buffer has
    at most 500 strikes, the total counts the insertions, the buffer is
    the last [min total 500] inserted strikes in insertion order, and an
    insertion into a full buffer drops its oldest strike. *)
Theorem store_invariant (ops : list op) :
  let st := run ops new_LightningStore in
  (length (strikes st) <= 500)%nat
  /\ total st = Z.of_nat (length (inserted ops))
  /\ strikes st
     = lastn (Nat.min (Z.to_nat (total st)) 500) (inserted ops)
  /\ (forall x, length (strikes st) = 500%nat ->
                strikes (add x st) = tl (strikes st) ++ [x]).
Proof.
  destruct (holds_run ops [] new_LightningStore (holds_empty 500))
    as (Hs & Ht & Hm).
  simpl in Hs, Ht. cbv zeta. rewrite Ht, Nat2Z.id.
  assert (E : lastn (Nat.min (length (inserted ops)) 500) (inserted ops)
              = lastn 500 (inserted ops)).
  { unfold lastn. f_equal. lia. }
  repeat split.
  - rewrite Hs, lastn_length. lia.
  - now rewrite E.
  - intros x Hfull. unfold add. rewrite Hm, length_app, Hfull. simpl.
    destruct (strikes (run ops new_LightningStore)) as [|y ys];
      [discriminate|].
    simpl in Hfull. unfold slice. simpl length.
    rewrite length_app. simpl length.
    change (-500 <? 0) with true. cbv iota.
    replace (Z.to_nat _) with 1%nat by lia. reflexivity.
Qed.

Lemma store_invariant_witness :
  strikes (add (strike_at 500)
             (run (repeat (Add (strike_at 0)) 500) new_LightningStore))
  = tl (strikes (run (repeat (Add (strike_at 0)) 500) new_LightningStore))
      ++ [strike_at 500].
Proof.
  apply (proj2 (proj2 (proj2
           (store_invariant (repeat (Add (strike_at 0)) 500))))).
  vm_compute. reflexivity.
Defined.

(** C5.  [getRecent 0] returns every stored strike, where the last zero
    strikes are none: on a store holding one strike it returns that
    strike. *)
Theorem getRecent_zero_returns_all :
  (forall st : LightningStore, getRecent 0 st = strikes st)
  /\ (forall s : LightningStrike,
         getRecent 0 (add s new_LightningStore) = [s]
         /\ lastn 0 (strikes (add s new_LightningStore)) = []).
Proof.
  split.
  - intros st. unfold getRecent. apply slice_zero.
  - intros s. split; reflexivity.
Qed.

End StoreProperties.

(* ------------------------------------------------------------------ *)
(** ** The subscriber registry and the broadcast *)

Section RegistryProperties.
Import JsString Net Props.

Section BroadcastFacts.
Context {P : Type}.
Variable throws : nat -> bool.
Variable data : chunk P.

Lemma write_clients_fold (clients : JsMap.t nat) : forall tr toDelete,
  fold_left (write_client throws data) clients (tr, toDelete)
  = (tr ++ map (attempt throws data) clients,
     toDelete ++ JsMap.keys (failing throws clients)).
Proof.
  induction clients as [|[id res] clients IH]; intros tr td; simpl.
  - now rewrite !app_nil_r.
  - unfold attempt at 1. simpl. destruct (throws res); rewrite IH; simpl;
      now rewrite <- !app_assoc.
Qed.

Lemma delete_clients_fold (ids : list jsstring) :
  forall clients (tr : list (effect P)),
  fold_left delete_client ids (clients, tr)
  = (filter (fun kv => negb (existsb (fun id => JsMap.str_eqb id (fst kv)) ids))
       clients,
     tr ++ map ClientsDelete ids).
Proof.
  induction ids as [|id ids IH]; intros clients tr; simpl.
  - rewrite app_nil_r. f_equal.
    induction clients as [|kv cl IHc]; simpl; congruence.
  - rewrite IH. unfold JsMap.delete. f_equal.
    + induction clients as [|kv cl IHc]; simpl; [reflexivity|].
      destruct (JsMap.str_eqb id (fst kv)); simpl; [assumption|].
      destruct (existsb _ ids); simpl; congruence.
    + now rewrite <- app_assoc.
Qed.
End BroadcastFacts.


Lemma str_eqb_eq (a b : jsstring) : JsMap.str_eqb a b = true <-> a = b.
Proof.
  revert b. induction a as [|x a IH]; intros [|y b]; simpl; split;
    try congruence; try reflexivity.
  - intros H. apply andb_prop in H as [Hx H].
    apply Z.eqb_eq in Hx. apply IH in H. congruence.
  - intros [= -> ->]. rewrite Z.eqb_refl. now apply IH.
Qed.

Lemma NoDup_keys_functional {V} (m : JsMap.t V) (k : jsstring) (v1 v2 : V) :
  NoDup (JsMap.keys m) -> In (k, v1) m -> In (k, v2) m -> v1 = v2.
Proof.
  unfold JsMap.keys. induction m as [|[k' v'] m IH]; simpl; [contradiction|].
  intros Hnd H1 H2. inversion Hnd as [|? ? Hk Hnd']; subst.
  destruct H1 as [H1 | H1], H2 as [H2 | H2].
  - congruence.
  - inversion H1; subst. apply (in_map fst) in H2. contradiction.
  - inversion H2; subst. apply (in_map fst) in H1. contradiction.
  - auto.
Qed.

Section RegistryFacts.
Context {P : Type}.
Variable throws : nat -> bool.
Variable data : chunk P.

Lemma broadcast_trace (clients : JsMap.t nat) (tr : list (effect P)) :
  snd (broadcast throws data clients tr)
  = tr ++ map (attempt throws data) clients
       ++ map ClientsDelete (JsMap.keys (failing throws clients)).
Proof.
  unfold broadcast. rewrite write_clients_fold, delete_clients_fold.
  simpl. now rewrite <- app_assoc.
Qed.

Lemma key_among_failing (clients : JsMap.t nat) (id : jsstring) (res : nat) :
  NoDup (JsMap.keys clients) -> In (id, res) clients ->
  existsb (fun id' => JsMap.str_eqb id' id)
    (JsMap.keys (failing throws clients))
  = throws res.
Proof.
  intros Hnd Hin. destruct (throws res) eqn:Hr.
  - apply existsb_exists. exists id. split; [|now apply str_eqb_eq].
    unfold JsMap.keys, failing. apply in_map_iff. exists (id, res).
    split; [reflexivity|]. apply filter_In. auto.
  - apply not_true_is_false. intros H.
    apply existsb_exists in H as (id' & Hin' & E).
    apply str_eqb_eq in E. subst id'.
    unfold JsMap.keys, failing in Hin'.
    apply in_map_iff in Hin' as ([k r] & Hk & Hf).
    simpl in Hk. subst k. apply filter_In in Hf as [Hf Hthr]. simpl in Hthr.
    rewrite (NoDup_keys_functional clients id r res Hnd Hf Hin) in Hthr.
    congruence.
Qed.

Lemma broadcast_clients (clients : JsMap.t nat) (tr : list (effect P)) :
  NoDup (JsMap.keys clients) ->
  fst (broadcast throws data clients tr) = alive throws clients.
Proof.
  intros Hnd. unfold broadcast. rewrite write_clients_fold, delete_clients_fold.
  simpl. unfold alive. apply filter_ext_in. intros [id res] Hin. simpl.
  now rewrite (key_among_failing clients id res Hnd Hin).
Qed.
End RegistryFacts.


Section ReceivedFacts.
Context {P : Type}.

Lemma received_app (res : nat) (a b : list (effect P)) :
  received res (a ++ b) = received res a ++ received res b.
Proof. unfold received. apply flat_map_app. Qed.

Lemma received_deletes (res : nat) (ids : list jsstring) :
  received res (map (@ClientsDelete P) ids) = [].
Proof. induction ids; simpl; auto. Qed.

Lemma received_attempts_absent throws data (clients : JsMap.t nat) (res : nat) :
  ~ In res (JsMap.values clients) ->
  received res (map (attempt (P:=P) throws data) clients) = [].
Proof.
  unfold JsMap.values.
  induction clients as [|[id r] cl IH]; simpl; [reflexivity|].
  intros H. unfold attempt at 1. simpl.
  destruct (throws r); simpl.
  - apply IH. tauto.
  - destruct (Nat.eqb_spec r res); [tauto|]. apply IH. tauto.
Qed.

Lemma received_attempts_failing throws data (clients : JsMap.t nat)
    (res : nat) :
  throws res = true ->
  received res (map (attempt (P:=P) throws data) clients) = [].
Proof.
  intros Hres. induction clients as [|[id r] cl IH]; simpl; [reflexivity|].
  unfold attempt at 1. simpl. destruct (throws r) eqn:Hr; simpl; [assumption|].
  destruct (Nat.eqb_spec r res); [congruence | assumption].
Qed.

Lemma received_attempts_alive throws data (clients : JsMap.t nat) (res : nat) :
  NoDup (JsMap.values clients) -> In res (JsMap.values clients) ->
  throws res = false ->
  received res (map (attempt (P:=P) throws data) clients) = [data].
Proof.
  unfold JsMap.values. intros Hnd Hin Hres.
  induction clients as [|[id r] cl IH]; simpl in *; [contradiction|].
  inversion Hnd as [|? ? Hr Hnd']; subst.
  unfold attempt at 1. simpl. destruct Hin as [-> | Hin].
  - rewrite Hres. simpl. rewrite Nat.eqb_refl. simpl.
    now rewrite (received_attempts_absent throws data cl res Hr).
  - assert (r <> res) by (intros ->; contradiction).
    destruct (throws r); simpl; [now apply IH|].
    destruct (Nat.eqb_spec r res); [contradiction | now apply IH].
Qed.
End ReceivedFacts.

Lemma NoDup_map_filter {A B} (keep : A -> bool) (proj : A -> B) :
  forall entries : list A,
    NoDup (map proj entries) -> NoDup (map proj (filter keep entries)).
Proof.
  intros entries. induction entries as [|x l IH]; simpl; intros H;
    [constructor|].
  inversion H as [|? ? Hx Hl]; subst. destruct (keep x); simpl; auto.
  constructor; auto. intros Hin. apply Hx.
  apply in_map_iff in Hin as (y & Hy & Hf). apply filter_In in Hf as [Hf _].
  apply in_map_iff. eauto.
Qed.

Lemma registry_ok_alive throws (clients : JsMap.t nat) :
  registry_ok clients -> registry_ok (alive throws clients).
Proof.
  intros [Hk Hv]. split; unfold JsMap.keys, JsMap.values, alive;
    now apply NoDup_map_filter.
Qed.

Lemma values_alive_absent throws (clients : JsMap.t nat) (res : nat) :
  ~ In res (JsMap.values clients) ->
  ~ In res (JsMap.values (alive throws clients)).
Proof.
  unfold JsMap.values, alive. intros H Hin. apply H.
  apply in_map_iff in Hin as (kv & E & Hf). apply filter_In in Hf as [Hf _].
  apply in_map_iff. eauto.
Qed.

Lemma values_alive_failing throws (clients : JsMap.t nat) (res : nat) :
  throws res = true -> ~ In res (JsMap.values (alive throws clients)).
Proof.
  unfold JsMap.values, alive. intros H Hin.
  apply in_map_iff in Hin as (kv & E & Hf). apply filter_In in Hf as [_ Hf].
  subst res. rewrite H in Hf. discriminate.
Qed.

Lemma keys_alive_failing throws (clients : JsMap.t nat) id res :
  NoDup (JsMap.keys clients) -> In (id, res) clients -> throws res = true ->
  ~ In id (JsMap.keys (alive throws clients)).
Proof.
  unfold alive. intros Hnd Hin H Hk.
  unfold JsMap.keys in Hk. apply in_map_iff in Hk as ([k r] & E & Hf).
  simpl in E. subst k. apply filter_In in Hf as [Hf Hr]. simpl in Hr.
  rewrite (NoDup_keys_functional clients id r res Hnd Hf Hin), H in Hr.
  discriminate.
Qed.

Section BroadcastAll.
Context {P : Type}.

Lemma broadcast_all_absent (ps : list ((nat -> bool) * chunk P)) :
  forall clients tr res,
    NoDup (JsMap.keys clients) ->
    ~ In res (JsMap.values clients) ->
    received res (snd (broadcast_all ps (clients, tr))) = received res tr
    /\ ~ In res (JsMap.values (fst (broadcast_all ps (clients, tr)))).
Proof.
  induction ps as [|[thr d] ps IH]; intros clients tr res Hk Hres; simpl;
    [auto|].
  destruct (broadcast thr d clients tr) as [cl1 tr1] eqn:E.
  pose proof (broadcast_clients thr d clients tr Hk) as Hc.
  pose proof (broadcast_trace thr d clients tr) as Ht.
  rewrite E in Hc, Ht. simpl in Hc, Ht. subst cl1 tr1.
  destruct (IH (alive thr clients)
              (tr ++ map (attempt thr d) clients
                  ++ map ClientsDelete (JsMap.keys (failing thr clients))) res)
    as [Hr Hv].
  - unfold JsMap.keys, alive. now apply NoDup_map_filter.
  - now apply values_alive_absent.
  - split; [|assumption]. rewrite Hr, !received_app, received_deletes.
    rewrite received_attempts_absent by assumption. now rewrite !app_nil_r.
Qed.

Lemma broadcast_all_alive (ps : list ((nat -> bool) * chunk P)) :
  forall clients tr id res,
    registry_ok clients -> In (id, res) clients ->
    (forall thr d, In (thr, d) ps -> thr res = false) ->
    received res (snd (broadcast_all ps (clients, tr)))
    = received res tr ++ map snd ps
    /\ In (id, res) (fst (broadcast_all ps (clients, tr)))
    /\ registry_ok (fst (broadcast_all ps (clients, tr))).
Proof.
  induction ps as [|[thr d] ps IH]; intros clients tr id res Hok Hin Hps; simpl.
  - rewrite app_nil_r. auto.
  - destruct (broadcast thr d clients tr) as [cl1 tr1] eqn:E.
    pose proof (broadcast_clients thr d clients tr (proj1 Hok)) as Hc.
    pose proof (broadcast_trace thr d clients tr) as Ht.
    rewrite E in Hc, Ht. simpl in Hc, Ht. subst cl1 tr1.
    assert (Hres : thr res = false) by (apply (Hps thr d); now left).
    destruct (IH (alive thr clients)
                (tr ++ map (attempt thr d) clients
                    ++ map ClientsDelete (JsMap.keys (failing thr clients)))
                id res) as (Hr & Hi & Hok').
    + now apply registry_ok_alive.
    + apply filter_In. simpl. now rewrite Hres.
    + intros thr' d' H. apply (Hps thr' d'). now right.
    + split; [|auto]. rewrite Hr, !received_app, received_deletes.
      rewrite (received_attempts_alive thr d clients res (proj2 Hok)); auto.
      * rewrite app_nil_r, <- app_assoc. reflexivity.
      * unfold JsMap.values. apply in_map_iff. now exists (id, res).
Qed.
End BroadcastAll.

End RegistryProperties.

(* ------------------------------------------------------------------ *)
(** ** The Blitzortung proxy *)

Section LightningProperties.
Import JsNumber JsString Buffer Net LightningWs Frame Props.
Import Blitzortung.

Lemma broadcastLightning_view throws strike st :
  (sseClients (broadcastLightning throws strike st),
   trace (broadcastLightning throws strike st))
  = broadcast throws (Data (Strike strike)) (sseClients st) (trace st).
Proof.
  unfold broadcastLightning. now destruct (broadcast _ _ _ _).
Qed.

Lemma publish_all_view ps : forall st,
  (sseClients (publish_all ps st), trace (publish_all ps st))
  = broadcast_all (map (fun p => (fst p, Data (Strike (snd p)))) ps)
      (sseClients st, trace st).
Proof.
  induction ps as [|[thr s] ps IH]; intros st; simpl; [reflexivity|].
  rewrite IH, broadcastLightning_view. reflexivity.
Qed.

Lemma on_message_view throws rawData id st :
  (sseClients (on_message throws rawData id st),
   trace (on_message throws rawData id st))
  = broadcast_all
      (map (fun p => (fst p, Data (Strike (snd p))))
         (decoded_frames [(throws, rawData, id)]))
      (sseClients st, trace st)
  /\ lightningStore (on_message throws rawData id st)
     = Store.add_all (decoded_strikes [(throws, rawData, id)])
         (lightningStore st).
Proof.
  unfold on_message, decoded_strikes, decoded_frames. simpl.
  destruct (Blitzortung.decodeBlitzortung (to_buffer rawData)) as [d|];
    simpl; [|auto].
  rewrite broadcastLightning_view. simpl. split; [reflexivity|].
  unfold broadcastLightning. simpl. now destruct (broadcast _ _ _ _).
Qed.

Lemma broadcast_all_app {P} (ps qs : list ((nat -> bool) * chunk P)) acc :
  broadcast_all (ps ++ qs) acc = broadcast_all qs (broadcast_all ps acc).
Proof. unfold broadcast_all. apply fold_left_app. Qed.

Lemma add_all_app l1 l2 st :
  Store.add_all (l1 ++ l2) st = Store.add_all l2 (Store.add_all l1 st).
Proof. unfold Store.add_all. apply fold_left_app. Qed.

Lemma decoded_frames_cons f frames :
  decoded_frames (f :: frames) = decoded_frames [f] ++ decoded_frames frames.
Proof. unfold decoded_frames. simpl. now rewrite app_nil_r. Qed.

Lemma on_messages_view frames : forall st,
  (sseClients (on_messages frames st), trace (on_messages frames st))
  = broadcast_all
      (map (fun p => (fst p, Data (Strike (snd p)))) (decoded_frames frames))
      (sseClients st, trace st)
  /\ lightningStore (on_messages frames st)
     = Store.add_all (decoded_strikes frames) (lightningStore st).
Proof.
  induction frames as [|[[thr buf] id] frames IH]; intros st;
    [split; reflexivity|].
  change (on_messages ((thr, buf, id) :: frames) st)
    with (on_messages frames (on_message thr buf id st)).
  destruct (IH (on_message thr buf id st)) as [Hv Hs].
  destruct (on_message_view thr buf id st) as [Hv1 Hs1].
  rewrite Hv, Hs, Hs1, Hv1.
  unfold decoded_strikes. rewrite (decoded_frames_cons (thr, buf, id) frames).
  rewrite !map_app, broadcast_all_app, add_all_app. auto.
Qed.

Lemma connect_busy ctor_throws st :
  isConnecting st = true \/ ws_open st = true ->
  connectBlitzortung ctor_throws st = st.
Proof.
  intros H. unfold connectBlitzortung.
  replace (isConnecting st || ws_open st) with true; [reflexivity|].
  symmetry. apply orb_true_iff. exact H.
Qed.

Lemma connect_many_busy bs : forall st,
  isConnecting st = true \/ ws_open st = true -> connect_many bs st = st.
Proof.
  induction bs as [|b bs IH]; intros st H; simpl; [reflexivity|].
  rewrite (connect_busy b st H). now apply IH.
Qed.

Lemma connect_many_sockets bs : forall st,
  (length (sockets (connect_many bs st)) <= S (length (sockets st)))%nat.
Proof.
  induction bs as [|b bs IH]; intros st; simpl; [lia|].
  unfold connectBlitzortung at 1.
  destruct (isConnecting st || ws_open st); [apply IH|].
  destruct b.
  - etransitivity; [apply IH|]. simpl. lia.
  - rewrite connect_many_busy by (left; reflexivity).
    simpl. rewrite length_app. simpl. lia.
Qed.

(** C6.  A call to [connectBlitzortung] made while [isConnecting] is set,
    or while the current socket is open, changes nothing: no socket is
    constructed, and the socket, the server index, the flag, the timer and
    the trace are as before.  Hence calls made one after the other
    construct at most one socket. *)
Theorem connect_is_noop_when_busy :
  (forall (ctor_throws : bool) (st : state),
      isConnecting st = true \/ ws_open st = true ->
      connectBlitzortung ctor_throws st = st)
  /\ (forall (ctor_throws : list bool) (st : state),
         (length (sockets (connect_many ctor_throws st))
          <= S (length (sockets st)))%nat).
Proof. split; [exact connect_busy | exact connect_many_sockets]. Qed.

Lemma connect_is_noop_when_busy_witness :
  connectBlitzortung false connecting_state = connecting_state.
Proof.
  apply (proj1 connect_is_noop_when_busy false connecting_state).
  left. reflexivity.
Defined.

(** C7.  When the write to a registered subscriber throws during a
    broadcast, the trace of the broadcast is the write attempts on every
    registered subscriber, in registry order, followed by the deletions:
    the subscriber is deleted after the iteration.  It is then no longer
    registered and receives nothing from any later broadcast, while every
    subscriber whose write returned is still registered, has received the
    strike, and receives every later strike for which its write returns. *)
Theorem failed_subscriber_removed_after_iteration :
  forall (throws : nat -> bool) (strike : Store.LightningStrike) (st : state)
         (id : jsstring) (res : nat),
    registry_ok (sseClients st) ->
    In (id, res) (sseClients st) ->
    throws res = true ->
    let st1 := broadcastLightning throws strike st in
    trace st1
    = trace st
        ++ map (attempt throws (Data (Strike strike))) (sseClients st)
        ++ map ClientsDelete (JsMap.keys (failing throws (sseClients st)))
    /\ In id (JsMap.keys (failing throws (sseClients st)))
    /\ sseClients st1 = alive throws (sseClients st)
    /\ ~ In id (JsMap.keys (sseClients st1))
    /\ (forall ps, received res (trace (publish_all ps st1))
                   = received res (trace st))
    /\ (forall id' res',
           In (id', res') (sseClients st) -> throws res' = false ->
           In (id', res') (sseClients st1)
           /\ forall ps,
               (forall thr s, In (thr, s) ps -> thr res' = false) ->
               received res' (trace (publish_all ps st1))
               = received res' (trace st)
                   ++ Data (Strike strike)
                   :: map (fun p => Data (Strike (snd p))) ps).
Proof.
  intros throws strike st id res Hok Hin Hthr st1.
  pose proof (broadcastLightning_view throws strike st) as Hv.
  fold st1 in Hv.
  assert (Ht : trace st1 = snd (broadcast throws (Data (Strike strike))
                                  (sseClients st) (trace st)))
    by now rewrite <- Hv.
  assert (Hc : sseClients st1 = fst (broadcast throws (Data (Strike strike))
                                       (sseClients st) (trace st)))
    by now rewrite <- Hv.
  rewrite broadcast_trace in Ht. rewrite broadcast_clients in Hc by apply Hok.
  assert (Hok1 : registry_ok (sseClients st1))
    by (rewrite Hc; now apply registry_ok_alive).
  repeat split.
  - exact Ht.
  - unfold JsMap.keys, failing. apply in_map_iff. exists (id, res).
    split; [reflexivity|]. apply filter_In. auto.
  - exact Hc.
  - rewrite Hc. now apply (keys_alive_failing throws _ id res (proj1 Hok)).
  - intros ps.
    pose proof (publish_all_view ps st1) as Hp.
    destruct (broadcast_all_absent
                (map (fun p => (fst p, Data (Strike (snd p)))) ps)
                (sseClients st1) (trace st1) res (proj1 Hok1)) as [Hr _].
    { rewrite Hc. now apply values_alive_failing. }
    rewrite <- Hp in Hr. simpl in Hr. rewrite Hr, Ht, !received_app.
    rewrite received_deletes, received_attempts_failing by assumption.
    now rewrite !app_nil_r.
  - rewrite Hc. apply filter_In. simpl. now rewrite H0.
  - intros ps Hps.
    pose proof (publish_all_view ps st1) as Hp.
    destruct (broadcast_all_alive
                (map (fun p => (fst p, Data (Strike (snd p)))) ps)
                (sseClients st1) (trace st1) id' res' Hok1) as [Hr _].
    { rewrite Hc. apply filter_In. simpl. now rewrite H0. }
    { intros thr d Hd. apply in_map_iff in Hd as ([thr' s] & [= <- <-] & Hd).
      now apply (Hps thr' s). }
    rewrite <- Hp in Hr. simpl in Hr. rewrite Hr, Ht, !received_app.
    rewrite received_deletes.
    rewrite (received_attempts_alive throws _ (sseClients st) res' (proj2 Hok));
      auto.
    + rewrite map_map. simpl. rewrite <- app_assoc. reflexivity.
    + unfold JsMap.values. apply in_map_iff. now exists (id', res').
Qed.

Lemma failed_subscriber_removed_after_iteration_witness :
  sseClients (broadcastLightning (Nat.eqb 0) (Store.strike_at 0) two_clients)
  = alive (Nat.eqb 0) (sseClients two_clients).
Proof.
  destruct (failed_subscriber_removed_after_iteration (Nat.eqb 0)
              (Store.strike_at 0) two_clients (u "a") 0%nat)
    as (_ & _ & H & _).
  - split; simpl; repeat constructor; simpl; intuition discriminate.
  - left. reflexivity.
  - reflexivity.
  - exact H.
Defined.

Lemma set_fresh {V} (k : jsstring) (v : V) (m : JsMap.t V) :
  ~ In k (JsMap.keys m) -> JsMap.set k v m = m ++ [(k, v)].
Proof.
  unfold JsMap.keys.
  induction m as [|[k' v'] m IH]; simpl; intros H; [reflexivity|].
  destruct (JsMap.str_eqb k k') eqn:E.
  - apply str_eqb_eq in E. subst k'. exfalso. apply H. now left.
  - rewrite IH by tauto. reflexivity.
Qed.

Lemma NoDup_snoc {A} (l : list A) (x : A) :
  NoDup l -> ~ In x l -> NoDup (l ++ [x]).
Proof.
  intros Hl Hx. apply NoDup_app; [assumption | repeat constructor; auto |].
  intros y Hy [<- | []]. contradiction.
Qed.

Lemma registry_ok_snoc (clients : JsMap.t nat) id res :
  registry_ok clients ->
  ~ In id (JsMap.keys clients) -> ~ In res (JsMap.values clients) ->
  registry_ok (clients ++ [(id, res)]).
Proof.
  intros [Hk Hv] Hid Hres. unfold registry_ok, JsMap.keys, JsMap.values.
  rewrite !map_app. simpl. split; now apply NoDup_snoc.
Qed.

(** C8.  A session attached while the store holds 50 strikes writes the
    connected message, then one history message carrying those 50 strikes
    (the result of [getRecent 50]), and then registers the subscriber.
    What the subscriber receives afterwards is, in order, exactly the
    strikes decoded from the frames handled after the attachment, which
    are the strikes the store gains after the snapshot. *)
Theorem session_history_then_live :
  forall (throws : nat -> bool) (clientId : jsstring) (res : nat)
         (st : state) (frames : list frame),
    length (Store.strikes (lightningStore st)) = 50%nat ->
    registry_ok (sseClients st) ->
    ~ In clientId (JsMap.keys (sseClients st)) ->
    ~ In res (JsMap.values (sseClients st)) ->
    throws res = false ->
    (forall thr rawData id, In (thr, rawData, id) frames -> thr res = false) ->
    let history := Store.strikes (lightningStore st) in
    let st1 := handleLightningSSE throws clientId res st in
    let st2 := on_messages frames st1 in
    Store.getRecent 50 (lightningStore st) = history
    /\ trace st1
       = trace st
           ++ [ResSetHeader res "Content-Type" "text/event-stream";
               ResSetHeader res "Cache-Control" "no-cache";
               ResSetHeader res "Connection" "keep-alive";
               ResSetHeader res "Access-Control-Allow-Origin" "*";
               ResFlushHeaders res;
               ResWrite res (Data (Connected clientId));
               ResWrite res (Data (History history));
               ClientsSet clientId res;
               SetInterval (next_timer st) 30000]
    /\ sseClients st1 = sseClients st ++ [(clientId, res)]
    /\ lightningStore st2
       = Store.add_all (decoded_strikes frames) (lightningStore st)
    /\ received res (trace st2)
       = received res (trace st)
           ++ [Data (Connected clientId); Data (History history)]
           ++ map (fun s => Data (Strike s)) (decoded_strikes frames).
Proof.
  intros throws clientId res st frames H50 Hok Hid Hres Hthr Hframes
    history st1 st2.
  assert (Hrecent : Store.getRecent 50 (lightningStore st) = history).
  { rewrite getRecent_last by lia. apply lastn_short.
    fold history in H50. lia. }
  assert (Hst1 : st1 = handleLightningSSE throws clientId res st)
    by reflexivity.
  unfold handleLightningSSE in Hst1. rewrite Hthr, Hrecent in Hst1.
  replace (0 <? length history)%nat with true in Hst1
    by (subst history; rewrite H50; reflexivity).
  cbn [addSSEClient with_trace sseClients currentServerIndex blitzortungWs
         reconnectTimer isConnecting lightningStore sockets next_timer trace]
    in Hst1.
  rewrite (set_fresh clientId res (sseClients st) Hid) in Hst1.
  assert (Htr1 : trace st1
                 = trace st
                     ++ [ResSetHeader res "Content-Type" "text/event-stream";
                         ResSetHeader res "Cache-Control" "no-cache";
                         ResSetHeader res "Connection" "keep-alive";
                         ResSetHeader res "Access-Control-Allow-Origin" "*";
                         ResFlushHeaders res;
                         ResWrite res (Data (Connected clientId));
                         ResWrite res (Data (History history));
                         ClientsSet clientId res;
                         SetInterval (next_timer st) 30000]).
  { rewrite Hst1. cbn [trace]. rewrite <- !app_assoc. reflexivity. }
  assert (Hcl1 : sseClients st1 = sseClients st ++ [(clientId, res)])
    by (rewrite Hst1; reflexivity).
  assert (Hls1 : lightningStore st1 = lightningStore st)
    by (rewrite Hst1; reflexivity).
  destruct (on_messages_view frames st1) as [Hv Hs]. fold st2 in Hv, Hs.
  repeat split; try assumption.
  - now rewrite Hs, Hls1.
  - destruct (broadcast_all_alive
                (map (fun p => (fst p, Data (Strike (snd p))))
                   (decoded_frames frames))
                (sseClients st1) (trace st1) clientId res) as [Hr _].
    + rewrite Hcl1. now apply registry_ok_snoc.
    + rewrite Hcl1. apply in_or_app. right. now left.
    + intros thr d Hd. apply in_map_iff in Hd as ([thr' s] & [= <- <-] & Hd).
      unfold decoded_frames in Hd.
      apply in_flat_map in Hd as ([[t b] i] & Hf & Hd).
      destruct (Blitzortung.decodeBlitzortung (to_buffer b)); [|contradiction].
      destruct Hd as [[= <- _] | []]. simpl. now apply (Hframes t b i).
    + rewrite <- Hv in Hr. simpl in Hr. rewrite Hr, Htr1, received_app.
      simpl. rewrite Nat.eqb_refl. simpl.
      unfold decoded_strikes. rewrite !map_map. simpl.
      rewrite <- app_assoc. reflexivity.
Qed.

Lemma session_history_then_live_witness :
  received 7%nat
    (trace (on_messages [(fun _ => false, inl scenario_frame, u "V1StGXR8")]
              (handleLightningSSE (fun _ => false) (u "client") 7%nat
                 fifty_strikes)))
  = received 7%nat (trace fifty_strikes)
      ++ [Data (Connected (u "client"));
          Data (History (Store.strikes (lightningStore fifty_strikes)))]
      ++ map (fun s => Data (Strike s))
           (decoded_strikes
              [(fun _ => false, inl scenario_frame, u "V1StGXR8")]).
Proof.
  destruct (session_history_then_live (fun _ => false) (u "client") 7%nat
              fifty_strikes
              [(fun _ => false, inl scenario_frame, u "V1StGXR8")])
    as (_ & _ & _ & _ & H).
  - vm_compute. reflexivity.
  - split; constructor.
  - simpl. tauto.
  - simpl. tauto.
  - reflexivity.
  - intros thr rawData id [[= <- _ _] | []]. reflexivity.
  - exact H.
Defined.

End LightningProperties.

(* ------------------------------------------------------------------ *)
(** ** The credential-gated feeds and the AIS message handler *)

Section FeedProperties.
Import JsNumber JsString Net Process AisStream Satellites.

(** C9.  With [AISSTREAM_API_KEY] unset, [connectAISStream] returns with
    the state as it was (no socket constructed, nothing traced), and the
    feed reports itself unavailable and disabled; with [N2YO_API_KEY]
    unset, [satellites.tracked] returns, without any request and without
    throwing, the result [available: false] with no satellite. *)
Theorem missing_credential_disables_feed :
  forall (e : env),
    (e "AISSTREAM_API_KEY"%string = None ->
     forall (ctor_throws : bool) (st : AisStream.state),
       connectAISStream e ctor_throws st = st
       /\ isAvailable e = false
       /\ getAISStreamStatus e st = disabled)
    /\ (e "N2YO_API_KEY"%string = None ->
        forall fetchAllSatellites,
          tracked fetchAllSatellites e
          = Returns {| available := false;
                       message := Some "N2YO API key not configured"%string;
                       count := None;
                       satellites := [] |}).
Proof.
  intros e. split.
  - intros He ctor_throws st.
    unfold connectAISStream, isAvailable, getAISStreamStatus, configured.
    rewrite He. auto.
  - intros He fetchAll. unfold tracked. now rewrite He.
Qed.

Lemma missing_credential_disables_feed_witness :
  connectAISStream no_env false AisStream.initial = AisStream.initial
  /\ tracked (fun _ => Throws "unreachable") no_env
     = Returns {| available := false;
                  message := Some "N2YO API key not configured"%string;
                  count := None;
                  satellites := [] |}.
Proof.
  split.
  - apply (proj1 (missing_credential_disables_feed no_env) eq_refl
             false AisStream.initial).
  - apply (proj2 (missing_credential_disables_feed no_env) eq_refl).
Defined.

(** C10.  A message whose extracted latitude or longitude is zero, or
    whose latitude and longitude are both below 0.01 in absolute value,
    leaves the state as it was: no vessel is stored and nothing is
    written to any subscriber.  A report on the equator or on the prime
    meridian is such a message. *)
Theorem zero_coordinates_dropped :
  forall (throws : nat -> bool) (now : Z) (msg : AisMessage)
         (st : AisStream.state) (la lo : number),
    latitude_of msg = Some la ->
    longitude_of msg = Some lo ->
    is_zero la = true \/ is_zero lo = true
    \/ (JsNumber.lt (Math_abs la) (decimal_value false 1 (-2)) = true
        /\ JsNumber.lt (Math_abs lo) (decimal_value false 1 (-2)) = true) ->
    AisStream.on_message throws now (Some msg) st = st.
Proof.
  intros throws now msg st la lo Hla Hlo H.
  unfold AisStream.on_message. rewrite Hla, Hlo. cbn [falsy from_option].
  destruct (negb _); [reflexivity|].
  destruct H as [Hz | [Hz | [H1 H2]]].
  - destruct la; try discriminate. reflexivity.
  - destruct lo; try discriminate. simpl. now rewrite orb_true_r.
  - rewrite H1, H2. simpl.
    repeat match goal with
           | |- (if ?c then st else _) = st => destruct c; [reflexivity|]
           end.
    reflexivity.
Qed.

Lemma zero_coordinates_dropped_witness :
  AisStream.on_message (fun _ => false) 1700000000000 (Some equator_report)
    AisStream.initial
  = AisStream.initial.
Proof.
  apply (zero_coordinates_dropped (fun _ => false) 1700000000000
           equator_report AisStream.initial (of_Z 0) (parseFloat (u "-29.5")));
    [reflexivity | reflexivity | left; reflexivity].
Defined.

End FeedProperties.
